(** * vul-scanner: the ingestion service ([service/vulnerabality.go])

    A shallow embedding of the service layer of the scanner: configuration
    from the environment, construction of the search query, the two retry
    loops (search and file download), per-file processing, the bounded
    worker pool of [processFilesInParallel], [Scan] and [Filter].

    Everything the Go code obtains from outside the process (environment
    variables, HTTP responses, the JSON decoder, the clock, the database)
    is supplied by a [World]: a record of oracles that answers each request
    of the code.  The functions below are otherwise deterministic and
    executable. *)

From Stdlib Require Import String Ascii List ZArith Lia Bool Arith Permutation.
Import ListNotations.
Open Scope string_scope.
Open Scope Z_scope.

(* ================================================================== *)
(** ** Data model *)

(** A point in time ([time.Time]), as a number of clock ticks. *)
Definition Time := Z.

(** Go's [error] values.  [fmt.Errorf] builds a message around a cause; the
    constructors keep the format of each call site and its arguments, so the
    kind of a failure and what it wraps stay visible. *)
#[warnings="-register-all"]
Inductive error : Type :=
| ExternalError (msg : string)
    (* an error made outside this package: net/http, io, encoding/json, repo *)
| StatusError (code : Z) (body : string)
    (* "GitHub API returned status %d: %s" *)
| TokenMissing
    (* errors.New("GitHub token not found in environment variables") *)
| ConnectFailed (cause : error)
    (* "failed to connect to database: %w" *)
| SearchFailed (attempts : Z) (cause : option error)
    (* "failed to search GitHub files after %d attempts: %w" *)
| DownloadFailed (attempts : Z) (cause : error)
    (* "failed to download file after %d attempts: %w" *)
| ParseFailed (cause : error) (payload : string)
    (* "FFFFailed to parse file: %w %v", err, string(data) *)
| SaveFailed (cause : error)
    (* "failed to save vulnerabilities: %w" *)
| ProcessingFailed (path : string) (cause : error)
    (* "error processing %s: %w", item.Path, err *)
| AllFilesFailed (first : error).
    (* "all files failed to process: %v", errorsOccurred[0] *)

(** How a call ends: it returns a value with a nil error, it returns an
    error, the process stops in [log.Fatal], or the goroutine panics. *)
Inductive run (A : Type) : Type :=
| Ok (a : A)
| Err (e : error)
| Fatal (msg : string)
| Panic (msg : string).
Arguments Ok {A} a.
Arguments Err {A} e.
Arguments Fatal {A} msg.
Arguments Panic {A} msg.

(** [repo.Vulnerabality].  [Cvss] is a [float64] in the source; nothing in
    the service computes with it, and it is kept here as the decimal literal
    it is decoded from. *)
Record Vulnerabality : Type := mkVulnerabality {
  ID : string;
  Severity : string;
  Cvss : string;
  Status : string;
  PackageName : string;
  CurrentVersion : string;
  FixedVersion : string;
  Description : string;
  PublishedDate : Time;
  Link : string;
  RiskFactors : list string;
  SourceFile : string;
  ScanTime : Time
}.

(** The two assignments of [processFile], lines 349 and 350. *)
Definition set_SourceFile (p : string) (v : Vulnerabality) : Vulnerabality :=
  mkVulnerabality (ID v) (Severity v) (Cvss v) (Status v) (PackageName v)
    (CurrentVersion v) (FixedVersion v) (Description v) (PublishedDate v)
    (Link v) (RiskFactors v) p (ScanTime v).

Definition set_ScanTime (t : Time) (v : Vulnerabality) : Vulnerabality :=
  mkVulnerabality (ID v) (Severity v) (Cvss v) (Status v) (PackageName v)
    (CurrentVersion v) (FixedVersion v) (Description v) (PublishedDate v)
    (Link v) (RiskFactors v) (SourceFile v) t.

(** [repo.ScanPayloads]: one block of a payload file; [Vulnerabilities]
    stands for [ScanResults.Vulnerabilities]. *)
Record ScanPayloads : Type := mkScanPayloads {
  Vulnerabilities : list Vulnerabality
}.

(** The anonymous struct of [searchGitHubFiles]: name, path and URL. *)
Record FileLocator : Type := mkFileLocator {
  Name : string;
  Path : string;
  URL : string
}.

(** [repo.SearchResponse]. *)
Record SearchResponse : Type := mkSearchResponse {
  TotalCount : Z;
  Items : list FileLocator
}.

(** [repo.ScanResult]; [ResultScanTime] is its field [ScanTime]. *)
Record ScanResult : Type := mkScanResult {
  ProcessedFiles : Z;
  ResultScanTime : Time;
  SourceRepo : string;
  SourceFiles : list string
}.

(* ================================================================== *)
(** ** The outside world *)

(** What [io.ReadAll(res.Body)] gives: the bytes read, and an error when the
    body could not be read to its end. *)
Record Body : Type := mkBody {
  bodyData : string;
  bodyErr : option error
}.

(** One HTTP exchange as the two loops see it. *)
Inductive HttpOutcome : Type :=
| NewRequestError (e : error)        (* http.NewRequest fails *)
| TransportError (e : error)         (* client.Do fails *)
| Response (status : Z) (body : Body).

Definition StatusOK : Z := 200.

(** [repo.DatabaseConfig]. *)
Record DatabaseConfig : Type := mkDatabaseConfig {
  Host : string;
  Port : Z;
  User : string;
  Password : string;
  DBName : string
}.

Record World : Type := mkWorld {
  (* os.Getenv when the package variables are initialised *)
  Getenv : string -> string;
  (* fmt.Sscanf(value, "%d", &result): the integer stored, if one is *)
  Sscanf_d : string -> option Z;
  (* os.Getenv("GITHUB_API_TOKEN") at the time of the call *)
  Token : string;
  (* the package variable [database] is already set *)
  databaseSet : bool;
  (* repo.NewPostgresRepo(dbConfig) *)
  NewPostgresRepo : DatabaseConfig -> option error;
  (* the answer to the n-th attempt of the search *)
  searchHttp : string -> string -> Z -> HttpOutcome;
  (* json.Unmarshal(data, &response): the response afterwards and the error *)
  unmarshalSearch : SearchResponse -> string -> SearchResponse * option error;
  (* the answer to the n-th attempt at downloading the file of unit i *)
  fileHttp : nat -> FileLocator -> string -> Z -> HttpOutcome;
  (* json.Unmarshal(data, &fileContent) *)
  unmarshalPayload : string -> list ScanPayloads * option error;
  (* time.Now() at line 342, in unit i *)
  nowInUnit : nat -> Time;
  (* time.Now() when the summary is built *)
  nowAtSummary : Time;
  (* database.SaveVulnerabilities in unit i; [database] is a dbRepository,
     repo.PostgresRepo or the mock of the tests *)
  SaveVulnerabilities : nat -> list Vulnerabality -> option error;
  (* database.GetVulnerabilities *)
  GetVulnerabilities : string -> list Vulnerabality * option error
}.

(* ================================================================== *)
(** ** Configuration *)

Definition getEnvOrDefault (w : World) (key defaultValue : string) : string :=
  let value := Getenv w key in
  if (value =? "")%string then defaultValue else value.

(** [result] is declared as 0 and the error of [Sscanf] is dropped. *)
Definition getEnvAsIntOrDefault (w : World) (key : string) (defaultValue : Z) : Z :=
  let value := Getenv w key in
  if (value =? "")%string then defaultValue
  else match Sscanf_d w value with
       | Some n => n
       | None => 0
       end.

Definition GITHUB_API (w : World) : string :=
  getEnvOrDefault w "GITHUB_API" "https://api.github.com/search/code".
Definition MAX_RETRIES (w : World) : Z := getEnvAsIntOrDefault w "MAX_RETRIES" 2.
Definition CONCURRENCY (w : World) : Z := getEnvAsIntOrDefault w "CONCURRENCY" 3.
Definition DB_PORT (w : World) : Z := getEnvAsIntOrDefault w "DB_PORT" 5432.

(* ================================================================== *)
(** ** The search query *)

(** One iteration of the loop over [filenames], line 150. *)
Definition addFilename (url filename : string) : string :=
  url ++ "+filename:" ++ filename ++ ".json".

Definition buildGitHubSearchURL (w : World) (repo : string)
    (filenames : list string) : run string :=
  if (repo =? "")%string then Fatal "You should provide a repository name!"
  else
    let url := GITHUB_API w ++ "?q=repo:" ++ repo in
    let url := fold_left addFilename filenames url in
    let url := if (length filenames =? 0)%nat
               then url ++ "+extension:json" else url in
    Ok url.

(* ================================================================== *)
(** ** What the code does to the outside, in order *)

Inductive Event : Type :=
| EvSleep (seconds : Z)                       (* time.Sleep(attempt * time.Second) *)
| EvSearchAttempt (attempt : Z)               (* one iteration of the search loop *)
| EvFetchAttempt (unit : nat) (attempt : Z)   (* one iteration of the download loop *)
| EvUnmarshal (unit : nat) (data : string)    (* json.Unmarshal(data, &fileContent) *)
| EvSave (unit : nat) (records : list Vulnerabality).
                                              (* database.SaveVulnerabilities *)

(** The sleep of lines 173-176 and 289-292. *)
Definition backoff (attempt : Z) : list Event :=
  if 0 <? attempt then [EvSleep attempt] else [].

(* ================================================================== *)
(** ** searchGitHubFiles *)

(** The loop of lines 172-211, [remaining] iterations from [attempt] on.
    [Some items] is the [return response.Items, nil] of line 210; [None] is
    the loop running out.  Every [err] the body assigns is the one declared
    in the body by [req, err :=] (line 178); the [err] of line 171 is not
    assigned anywhere. *)
Fixpoint searchLoop (w : World) (url token : string) (remaining : nat)
    (attempt : Z) (response : SearchResponse)
    : option (list FileLocator) * list Event :=
  match remaining with
  | O => (None, [])
  | S r =>
    let ev := (backoff attempt ++ [EvSearchAttempt attempt])%list in
    let continue response' :=
      let '(res, evs) := searchLoop w url token r (attempt + 1) response' in
      (res, (ev ++ evs)%list) in
    match searchHttp w url token attempt with
    | NewRequestError _ => continue response
    | TransportError _ => continue response
    | Response status body =>
      if negb (status =? StatusOK) then continue response
      else match bodyErr body with
           | Some _ => continue response
           | None =>
             let '(response', err) := unmarshalSearch w response (bodyData body) in
             match err with
             | Some _ => continue response'
             | None => (Some (Items response'), ev)
             end
           end
    end
  end.

(** The number of iterations of [for attempt := 0; attempt <= MAX_RETRIES;
    attempt++]: none when MAX_RETRIES is negative.  ([attempt] is taken as
    an integer without bound: MAX_RETRIES is below the largest [int].) *)
Definition iterations (w : World) : nat := Z.to_nat (MAX_RETRIES w + 1).

Definition searchGitHubFiles (w : World) (url token : string)
    : run (list FileLocator) * list Event :=
  let err : option error := None in          (* var err error, line 171 *)
  let '(res, evs) :=
    searchLoop w url token (iterations w) 0 (mkSearchResponse 0 []) in
  match res with
  | Some items => (Ok items, evs)
  | None => (Err (SearchFailed (MAX_RETRIES w + 1) err), evs)
  end.

(* ================================================================== *)
(** ** processFile *)

(** The loop of lines 288-326 for unit [i]; the result is [data] when the
    loop is left.  As in the search, the body assigns the [err] of its own
    block (declared by [req, err :=], line 294); [data] is the variable of
    line 285, assigned at line 319 whether or not the read failed. *)
Fixpoint downloadLoop (w : World) (i : nat) (item : FileLocator)
    (token : string) (remaining : nat) (attempt : Z) (data : string)
    : string * list Event :=
  match remaining with
  | O => (data, [])
  | S r =>
    let ev := (backoff attempt ++ [EvFetchAttempt i attempt])%list in
    let continue data' :=
      let '(d, evs) := downloadLoop w i item token r (attempt + 1) data' in
      (d, (ev ++ evs)%list) in
    match fileHttp w i item token attempt with
    | NewRequestError _ => continue data
    | TransportError _ => continue data
    | Response status body =>
      if negb (status =? StatusOK) then continue data
      else match bodyErr body with
           | Some _ => continue (bodyData body)
           | None => (bodyData body, ev)          (* break *)
           end
    end
  end.

(** Lines 343-353: the records of every block, in order, with the two
    metadata fields set. *)
Definition collect (path : string) (scanTime : Time)
    (fileContent : list ScanPayloads) : list Vulnerabality :=
  fold_left
    (fun vulnerabilities scanResult =>
       if (length (Vulnerabilities scanResult) =? 0)%nat then vulnerabilities
       else fold_left
              (fun vs payload =>
                 (vs ++ [set_ScanTime scanTime (set_SourceFile path payload)])%list)
              (Vulnerabilities scanResult) vulnerabilities)
    fileContent [].

Definition processFile (w : World) (i : nat) (item : FileLocator)
    (token : string) : option error * list Event :=
  let err : option error := None in          (* var err error, line 286 *)
  let '(data, evs) := downloadLoop w i item token (iterations w) 0 "" in
  match err with
  | Some e => (Some (DownloadFailed (MAX_RETRIES w + 1) e), evs)
  | None =>
    let '(fileContent, err) := unmarshalPayload w data in
    let evs := (evs ++ [EvUnmarshal i data])%list in
    match err with
    | Some e => (Some (ParseFailed e data), evs)
    | None =>
      let scanTime := nowInUnit w i in
      let vulnerabilities := collect (Path item) scanTime fileContent in
      if (0 <? length vulnerabilities)%nat then
        match SaveVulnerabilities w i vulnerabilities with
        | Some e => (Some (SaveFailed e), (evs ++ [EvSave i vulnerabilities])%list)
        | None => (None, (evs ++ [EvSave i vulnerabilities])%list)
        end
      else (None, evs)
    end
  end.

(* ================================================================== *)
(** ** processFilesInParallel *)

(** Where a goroutine started at line 236 stands. *)
Inductive Phase : Type :=
| InProcessFile      (* started; [processFile] has not returned yet *)
| Recorded           (* outcome appended under [mu]; its slot of [pool] still held *)
| Released.          (* [<-pool] done; [wg.Done()] not yet *)

Record Worker : Type := mkWorker {
  wIdx : nat;
  wItem : FileLocator;
  wPhase : Phase
}.

(** The variables of lines 222-229 and the position of the [range] loop. *)
Record PoolState : Type := mkPoolState {
  toSubmit : list (nat * FileLocator);   (* items the loop has not reached *)
  pool : nat;                            (* len(pool) *)
  workers : list Worker;                 (* goroutines counted by [wg] *)
  processedFiles : list string;
  errorsOccurred : list error;
  events : list Event
}.

(** What can happen next.  [Submit] is the loop body in the calling
    goroutine: [wg.Add(1)], the send on [pool], the [go] statement.  The
    others are the three stages of the goroutine of unit [i]: the call of
    [processFile] with the append guarded by [mu], then the deferred calls
    in their order, [<-pool] and [wg.Done()]. *)
Inductive Move : Type :=
| Submit
| Finish (i : nat)
| Release (i : nat)
| WgDone (i : nat).

Definition Phase_eqb (p q : Phase) : bool :=
  match p, q with
  | InProcessFile, InProcessFile | Recorded, Recorded | Released, Released => true
  | _, _ => false
  end.

(** Moves the worker of unit [i] from phase [from] to phase [to]. *)
Fixpoint advance (i : nat) (from to : Phase) (ws : list Worker)
    : option (FileLocator * list Worker) :=
  match ws with
  | [] => None
  | x :: rest =>
    if (wIdx x =? i)%nat then
      if Phase_eqb (wPhase x) from
      then Some (wItem x, mkWorker (wIdx x) (wItem x) to :: rest)
      else None
    else match advance i from to rest with
         | Some (item, rest') => Some (item, x :: rest')
         | None => None
         end
  end.

(** Takes the worker of unit [i] away once it is [Released]. *)
Fixpoint retire (i : nat) (ws : list Worker) : option (list Worker) :=
  match ws with
  | [] => None
  | x :: rest =>
    if (wIdx x =? i)%nat then
      if Phase_eqb (wPhase x) Released then Some rest else None
    else match retire i rest with
         | Some rest' => Some (x :: rest')
         | None => None
         end
  end.

(** One move; [None] when the move cannot be made in this state: a send on
    a full channel and a receive on an empty one block. *)
Definition step (w : World) (token : string) (capacity : Z) (m : Move)
    (s : PoolState) : option PoolState :=
  match m with
  | Submit =>
    match toSubmit s with
    | [] => None
    | (i, item) :: rest =>
      if Z.of_nat (pool s) <? capacity then
        Some (mkPoolState rest (S (pool s))
                (workers s ++ [mkWorker i item InProcessFile])%list
                (processedFiles s) (errorsOccurred s) (events s))
      else None
    end
  | Finish i =>
    match advance i InProcessFile Recorded (workers s) with
    | None => None
    | Some (item, ws) =>
      let '(err, evs) := processFile w i item token in
      match err with
      | Some e =>
        Some (mkPoolState (toSubmit s) (pool s) ws (processedFiles s)
                (errorsOccurred s ++ [ProcessingFailed (Path item) e])%list
                (events s ++ evs)%list)
      | None =>
        Some (mkPoolState (toSubmit s) (pool s) ws
                (processedFiles s ++ [Path item])%list
                (errorsOccurred s) (events s ++ evs)%list)
      end
    end
  | Release i =>
    match advance i Recorded Released (workers s), pool s with
    | Some (_, ws), S n =>
      Some (mkPoolState (toSubmit s) n ws (processedFiles s)
              (errorsOccurred s) (events s))
    | _, _ => None
    end
  | WgDone i =>
    match retire i (workers s) with
    | Some ws =>
      Some (mkPoolState (toSubmit s) (pool s) ws (processedFiles s)
              (errorsOccurred s) (events s))
    | None => None
    end
  end.

Fixpoint steps (w : World) (token : string) (capacity : Z)
    (schedule : list Move) (s : PoolState) : option PoolState :=
  match schedule with
  | [] => Some s
  | m :: rest =>
    match step w token capacity m s with
    | Some s' => steps w token capacity rest s'
    | None => None
    end
  end.

(** The items with their positions in the slice. *)
Definition numbered (items : list FileLocator) : list (nat * FileLocator) :=
  combine (seq 0 (length items)) items.

Definition initial (items : list FileLocator) : PoolState :=
  mkPoolState (numbered items) 0 [] [] [] [].

(** [wg.Wait()] returns: the loop is over and every goroutine is done. *)
Definition completed (s : PoolState) : bool :=
  match toSubmit s, workers s with
  | [], [] => true
  | _, _ => false
  end.

(** Lines 260-273. *)
Definition summary (w : World) (items : list FileLocator) (repoName : string)
    (s : PoolState) : run ScanResult :=
  if (length (errorsOccurred s) =? length items)%nat then
    match errorsOccurred s with
    | e :: _ => Err (AllFilesFailed e)
    | [] => Panic "index out of range [0] with length 0"
    end
  else
    Ok (mkScanResult (Z.of_nat (length (processedFiles s))) (nowAtSummary w)
          repoName (processedFiles s)).

(** [processFilesInParallel] under a schedule of the goroutines.  [None]: the
    schedule is not a run of the function to its end (a move of it cannot
    be made, or [wg.Wait()] has not returned after it). *)
Definition processFilesInParallel (w : World) (items : list FileLocator)
    (token repoName : string) (schedule : list Move)
    : option (run ScanResult * list Event) :=
  if CONCURRENCY w <? 0 then
    Some (Panic "makechan: size out of range", [])
  else
    match steps w token (CONCURRENCY w) schedule (initial items) with
    | Some s =>
      if completed s then Some (summary w items repoName s, events s) else None
    | None => None
    end.

(** The schedule that runs the units one after the other. *)
Definition oneByOne (n : nat) : list Move :=
  flat_map (fun i => [Submit; Finish i; Release i; WgDone i]) (seq 0 n).

(* ================================================================== *)
(** ** InitDatabase, Scan, Filter *)

Definition InitDatabase (w : World) : option error :=
  let dbConfig :=
    mkDatabaseConfig (getEnvOrDefault w "DB_HOST" "localhost") (DB_PORT w)
      (getEnvOrDefault w "DB_USER" "postgres")
      (getEnvOrDefault w "DB_PASSWORD" "postgres")
      (getEnvOrDefault w "DB_NAME" "") in
  match NewPostgresRepo w dbConfig with
  | Some err => Some (ConnectFailed err)
  | None => None
  end.

(** [if database == nil { if err := InitDatabase(); ... }] *)
Definition ensureDatabase (w : World) : option error :=
  if databaseSet w then None else InitDatabase w.

Definition Scan (w : World) (repoName : string) (filenames : list string)
    (schedule : list Move) : option (run ScanResult * list Event) :=
  match ensureDatabase w with
  | Some err => Some (Err err, [])
  | None =>
    let token := Token w in
    if (token =? "")%string then Some (Err TokenMissing, [])
    else
      match buildGitHubSearchURL w repoName filenames with
      | Fatal msg => Some (Fatal msg, [])
      | Panic msg => Some (Panic msg, [])
      | Err err => Some (Err err, [])
      | Ok url =>
        match searchGitHubFiles w url token with
        | (Ok items, evs) =>
          if (length items =? 0)%nat then
            Some (Ok (mkScanResult 0 (nowAtSummary w) repoName []), evs)
          else
            match processFilesInParallel w items token repoName schedule with
            | Some (r, evs') => Some (r, (evs ++ evs')%list)
            | None => None
            end
        | (Err err, evs) => Some (Err err, evs)
        | (Fatal msg, evs) => Some (Fatal msg, evs)
        | (Panic msg, evs) => Some (Panic msg, evs)
        end
      end
  end.

Definition Filter (w : World) (severity : string) : run (list Vulnerabality) :=
  match ensureDatabase w with
  | Some err => Err err
  | None =>
    let '(vulnerabilities, err) := GetVulnerabilities w severity in
    match err with
    | Some _ => Ok []
    | None => Ok vulnerabilities
    end
  end.

(* ================================================================== *)
(** ** The claims in the terms of the specification *)

(** The term the query gets for one filename hint. *)
Definition filenameTerm (hint : string) : string :=
  "+filename:" ++ hint ++ ".json".

(** The restriction to the [.json] extension. *)
Definition extensionTerm : string := "+extension:json".

(** The filter of the query as the specification words it: the filename terms
    of the hints when there are hints, the extension term alone when there
    are none. *)
Definition queryTerms (hints : list string) : list string :=
  match hints with
  | [] => [extensionTerm]
  | _ :: _ => map filenameTerm hints
  end.

Definition joined (terms : list string) : string :=
  fold_right append "" terms.

(** The events of [n] attempts that all fail, the first numbered [attempt],
    as the specification words the retry policy: a wait of [attempt] time
    units before every attempt but attempt 0. *)
Fixpoint attemptsFrom (mk : Z -> Event) (n : nat) (attempt : Z) : list Event :=
  match n with
  | O => []
  | S k =>
    ((if 0 <? attempt then [EvSleep attempt] else [])
       ++ mk attempt :: attemptsFrom mk k (attempt + 1))%list
  end.

(** The wait before each of the attempts in a list of events, in order. *)
Fixpoint waits (pending : Z) (evs : list Event) : list Z :=
  match evs with
  | [] => []
  | EvSleep n :: rest => waits (pending + n) rest
  | EvSearchAttempt _ :: rest => pending :: waits 0 rest
  | EvFetchAttempt _ _ :: rest => pending :: waits 0 rest
  | _ :: rest => waits pending rest
  end.

Definition isSearchAttempt (e : Event) : bool :=
  match e with EvSearchAttempt _ => true | _ => false end.

Definition isFetchAttempt (i : nat) (e : Event) : bool :=
  match e with EvFetchAttempt j _ => (i =? j)%nat | _ => false end.

Definition isUnmarshal (i : nat) (e : Event) : bool :=
  match e with EvUnmarshal j _ => (i =? j)%nat | _ => false end.

(** An event of the worker pool: a download, a decode or a write. *)
Definition isUnitEvent (e : Event) : bool :=
  match e with
  | EvFetchAttempt _ _ | EvUnmarshal _ _ | EvSave _ _ => true
  | _ => false
  end.

(** The records handed to the storage layer, in order. *)
Definition saved (evs : list Event) : list Vulnerabality :=
  flat_map (fun e => match e with EvSave _ rs => rs | _ => [] end) evs.

(** The records unit [i] handed to the storage layer. *)
Definition savedBy (i : nat) (evs : list Event) : list Vulnerabality :=
  flat_map (fun e => match e with
                     | EvSave j rs => if (i =? j)%nat then rs else []
                     | _ => []
                     end) evs.

(** An HTTP exchange that does not end in a body read with status 200. *)
Definition failedExchange (o : HttpOutcome) : bool :=
  match o with
  | NewRequestError _ | TransportError _ => true
  | Response status body =>
    negb (status =? StatusOK) || match bodyErr body with Some _ => true | None => false end
  end.

(** An exchange that fails before any body is kept: a transport error or a
    status other than 200. *)
Definition failedWithoutBody (o : HttpOutcome) : bool :=
  match o with
  | NewRequestError _ | TransportError _ => true
  | Response status _ => negb (status =? StatusOK)
  end.

(** What [Finish i] records for the unit of [item]. *)
Definition unitResult (w : World) (token : string) (u : nat * FileLocator)
    : option error :=
  fst (processFile w (fst u) (snd u) token).

Definition succeeded (w : World) (token : string) (u : nat * FileLocator) : bool :=
  match unitResult w token u with None => true | Some _ => false end.

(** The goroutines that hold a slot of [pool]. *)
Definition holdsSlot (x : Worker) : bool :=
  negb (Phase_eqb (wPhase x) Released).

Definition inProcessFile (x : Worker) : bool :=
  Phase_eqb (wPhase x) InProcessFile.


(** Attempt [attempt] of the search fails: the exchange fails, or the body
    it delivers is not decoded. *)
Definition searchAttemptFails (w : World) (url token : string) (attempt : Z)
    : Prop :=
  match searchHttp w url token attempt with
  | Response status body =>
    failedExchange (Response status body) = true \/
    forall response, snd (unmarshalSearch w response (bodyData body)) <> None
  | _ => True
  end.

(** [json.Unmarshal] rejects the empty input. *)
Definition rejectsEmpty (w : World) : Prop :=
  snd (unmarshalPayload w "") <> None.

(** An event that follows the download loop in a unit. *)
Definition afterDownload (e : Event) : bool :=
  match e with
  | EvUnmarshal _ _ | EvSave _ _ => true
  | _ => false
  end.

(** The units that are in [processFile]. *)
Definition running (ws : list Worker) : list (nat * FileLocator) :=
  map (fun x => (wIdx x, wItem x)) (filter inProcessFile ws).

(** The paths a list of finished units leaves in [processedFiles]. *)
Definition okPaths (w : World) (token : string)
    (finished : list (nat * FileLocator)) : list string :=
  map (fun u => Path (snd u)) (filter (succeeded w token) finished).

(** The errors a list of finished units leaves in [errorsOccurred]. *)
Definition failures (w : World) (token : string)
    (finished : list (nat * FileLocator)) : list error :=
  flat_map (fun u => match unitResult w token u with
                     | Some e => [ProcessingFailed (Path (snd u)) e]
                     | None => []
                     end) finished.

(** The outcomes recorded in a state are those of the units of [finished],
    in the order in which they finished, and every unit is either waiting,
    in [processFile], or finished. *)
Definition accountsFor (w : World) (token : string) (items : list FileLocator)
    (s : PoolState) (finished : list (nat * FileLocator)) : Prop :=
  Permutation (numbered items) (toSubmit s ++ running (workers s) ++ finished) /\
  processedFiles s = okPaths w token finished /\
  errorsOccurred s = failures w token finished.

(** The records of a write of unit [j] carry the path of the [j]-th locator
    and the reading of the clock made in that unit. *)
Definition stamped (w : World) (items : list FileLocator) (e : Event) : Prop :=
  match e with
  | EvSave j rs =>
    exists item, nth_error items j = Some item /\
      Forall (fun v => SourceFile v = Path item /\ ScanTime v = nowInUnit w j) rs
  | _ => True
  end.

(** Every unit of a state is one of the numbered items. *)
Definition wellNumbered (items : list FileLocator) (s : PoolState) : Prop :=
  (forall u, In u (toSubmit s) -> nth_error items (fst u) = Some (snd u)) /\
  (forall x, In x (workers s) -> nth_error items (wIdx x) = Some (wItem x)).

(** The metadata [processFile] attaches to a record. *)
Definition stamp (path : string) (scanTime : Time) (v : Vulnerabality)
    : Vulnerabality :=
  set_ScanTime scanTime (set_SourceFile path v).

(** An event of the download loop of unit [i]. *)
Definition isLoopEvent (i : nat) (e : Event) : bool :=
  match e with
  | EvSleep _ => true
  | EvFetchAttempt j _ => (i =? j)%nat
  | _ => false
  end.

(** The slots of [pool] in use are those of the goroutines that have not
    made their [<-pool] yet, and there are at most [capacity] of them. *)
Definition slotsHeld (capacity : Z) (s : PoolState) : Prop :=
  length (filter holdsSlot (workers s)) = pool s /\
  Z.of_nat (pool s) <= capacity.

(** What holds of every state of the pool.  *)
Definition invariant (w : World) (token : string) (capacity : Z)
    (items : list FileLocator) (s : PoolState) : Prop :=
  slotsHeld capacity s /\
  wellNumbered items s /\
  (exists finished, accountsFor w token items s finished) /\
  Forall (stamped w items) (events s).

(** All the records handed to the storage layer carry one timestamp. *)
Definition sharedTimestamp (evs : list Event) : Prop :=
  exists t, Forall (fun v => ScanTime v = t) (saved evs).

(** The locators the search of a scan returns. *)
Definition candidates (w : World) (repoName : string) (filenames : list string)
    : list FileLocator :=
  match buildGitHubSearchURL w repoName filenames with
  | Ok url =>
    match fst (searchGitHubFiles w url (Token w)) with
    | Ok items => items
    | _ => []
    end
  | _ => []
  end.

(** An event of the search loop. *)
Definition isSearchEvent (e : Event) : bool :=
  match e with
  | EvSleep _ | EvSearchAttempt _ => true
  | _ => false
  end.

(** The payload a parse error shows is at most [limit] characters long. *)
Definition truncatedView (limit : nat) (e : option error) : Prop :=
  match e with
  | Some (ParseFailed _ view) => (String.length view <= limit)%nat
  | _ => True
  end.

(** An integer setting that is set, and from which [%d] reads no integer. *)
Definition nonNumeric (w : World) (key : string) : Prop :=
  Getenv w key <> "" /\ Sscanf_d w (Getenv w key) = None.

(* ================================================================== *)
(** ** Example worlds *)

Module Examples.

(** What [Sscanf] stores for the verb [%d] on the inputs of the examples:
    leading blanks are skipped, then an optional sign and a run of decimal
    digits is read; whatever follows the digits is left unread.  Nothing is
    stored when no digit is found. *)
Definition isDigit (c : ascii) : bool :=
  ((48 <=? nat_of_ascii c) && (nat_of_ascii c <=? 57))%nat.

Fixpoint digits (s : string) (acc : Z) (seen : bool) : option Z :=
  match s with
  | EmptyString => if seen then Some acc else None
  | String c rest =>
    if isDigit c
    then digits rest (10 * acc + Z.of_nat (nat_of_ascii c - 48)) true
    else if seen then Some acc else None
  end.

Fixpoint skipBlanks (s : string) : string :=
  match s with
  | String c rest =>
    if (nat_of_ascii c =? 32)%nat || (nat_of_ascii c =? 9)%nat
    then skipBlanks rest else s
  | EmptyString => s
  end.

Definition scanDecimal (s : string) : option Z :=
  match skipBlanks s with
  | String c rest =>
    if (nat_of_ascii c =? 45)%nat then option_map Z.opp (digits rest 0 false)
    else if (nat_of_ascii c =? 43)%nat then digits rest 0 false
    else digits (String c rest) 0 false
  | EmptyString => None
  end.

(** An environment given as a list of settings. *)
Fixpoint lookupEnv (settings : list (string * string)) (key : string) : string :=
  match settings with
  | [] => ""
  | (k, v) :: rest => if (k =? key)%string then v else lookupEnv rest key
  end.

(** JSON text, written with its quotation marks. *)
Definition quoted (s : string) : string :=
  String "034"%char (s ++ String "034"%char "").

Definition member (key value : string) : string :=
  quoted key ++ ":" ++ value.

(** A payload file with one block holding one record. *)
Definition payloadText (id severity : string) : string :=
  "[{" ++ member "scanResults"
            ("{" ++ member "vulnerabilities"
                      ("[{" ++ member "id" (quoted id) ++ ","
                            ++ member "severity" (quoted severity) ++ "}]")
                 ++ "}")
       ++ "}]".

Definition decodedRecord (id severity : string) : Vulnerabality :=
  mkVulnerabality id severity "0" "" "" "" "" "" 0 "" [] "" 0.

Definition fileA : FileLocator := mkFileLocator "a.json" "scans/a.json" "https://api.example/a".
Definition fileB : FileLocator := mkFileLocator "b.json" "scans/b.json" "https://api.example/b".
Definition fileC : FileLocator := mkFileLocator "c.json" "scans/c.json" "https://api.example/c".

Definition textA : string := payloadText "CVE-2024-1234" "HIGH".
Definition textB : string := payloadText "CVE-2024-5678" "MEDIUM".
Definition brokenText : string := "{not json".

(** [json.Unmarshal] into [fileContent] on the texts of the examples. *)
Definition decodePayload (data : string) : list ScanPayloads * option error :=
  if (data =? textA)%string
  then ([mkScanPayloads [decodedRecord "CVE-2024-1234" "HIGH"]], None)
  else if (data =? textB)%string
  then ([mkScanPayloads [decodedRecord "CVE-2024-5678" "MEDIUM"]], None)
  else if (data =? "[]")%string then ([], None)
  else if (data =? "")%string
  then ([], Some (ExternalError "unexpected end of JSON input"))
  else ([], Some (ExternalError "invalid character in JSON input")).

(** The body of an answer of the search endpoint. *)
Definition locatorText (f : FileLocator) : string :=
  "{" ++ member "name" (quoted (Name f)) ++ ","
      ++ member "path" (quoted (Path f)) ++ ","
      ++ member "url" (quoted (URL f)) ++ "}".

Definition searchText (count : string) (items : list FileLocator) : string :=
  "{" ++ member "total_count" count ++ ","
      ++ member "items" ("[" ++ String.concat "," (map locatorText items) ++ "]") ++ "}".

Definition noMatch : string := searchText "0" [].
Definition oneMatch : string := searchText "1" [fileA].
Definition twoMatches : string := searchText "2" [fileA; fileB].
Definition threeMatches : string := searchText "3" [fileA; fileB; fileC].

(** [json.Unmarshal] into [response] on the texts of the examples. *)
Definition decodeSearch (response : SearchResponse) (data : string)
    : SearchResponse * option error :=
  if (data =? noMatch)%string then (mkSearchResponse 0 [], None)
  else if (data =? oneMatch)%string then (mkSearchResponse 1 [fileA], None)
  else if (data =? twoMatches)%string
  then (mkSearchResponse 2 [fileA; fileB], None)
  else if (data =? threeMatches)%string
  then (mkSearchResponse 3 [fileA; fileB; fileC], None)
  else (response, Some (ExternalError "invalid character in JSON input")).

Definition ok (data : string) : HttpOutcome :=
  Response StatusOK (mkBody data None).

Definition unreachable : HttpOutcome :=
  TransportError (ExternalError "dial tcp: connection refused").

(** A world built from its answers; the database is set and accepts every
    write. *)
Definition world (settings : list (string * string))
    (search : Z -> HttpOutcome) (file : nat -> Z -> HttpOutcome)
    (now : nat -> Time)
    (get : string -> list Vulnerabality * option error) : World :=
  mkWorld (lookupEnv settings) scanDecimal "token" true (fun _ => None)
    (fun _ _ => search) decodeSearch (fun i _ _ => file i) decodePayload
    now 100 (fun _ _ => None) get.

Definition noRecords (severity : string) : list Vulnerabality * option error :=
  ([], None).

(** Three candidates: the second one is not JSON. *)
Definition partialWorld : World :=
  world [] (fun _ => ok threeMatches)
    (fun i _ => match i with
                | O => ok textA
                | 1%nat => ok brokenText
                | _ => ok textB
                end)
    (fun _ => 7) noRecords.

(** Three candidates, none of them JSON. *)
Definition allBrokenWorld : World :=
  world [] (fun _ => ok threeMatches) (fun _ _ => ok brokenText) (fun _ => 7) noRecords.

(** The search endpoint and the files cannot be reached. *)
Definition offlineWorld : World :=
  world [] (fun _ => unreachable) (fun _ _ => unreachable) (fun _ => 7) noRecords.

(** The search answers at its second attempt; the file never does. *)
Definition flakyWorld : World :=
  world [] (fun attempt => if attempt =? 1 then ok oneMatch else unreachable)
    (fun _ _ => unreachable) (fun _ => 7) noRecords.

(** Two files read at two readings of the clock. *)
Definition twoFilesWorld : World :=
  world [] (fun _ => ok twoMatches)
    (fun i _ => match i with O => ok textA | _ => ok textB end)
    (fun i => match i with O => 5 | _ => 7 end) noRecords.

(** A search without a match. *)
Definition emptyWorld : World :=
  world [] (fun _ => ok noMatch) (fun _ _ => unreachable) (fun _ => 7)
    noRecords.

(** The storage layer fails to read. *)
Definition brokenStoreWorld : World :=
  world [] (fun _ => ok noMatch) (fun _ _ => unreachable) (fun _ => 7)
    (fun _ => ([], Some (ExternalError "failed to query vulnerabilities"))).

(** Settings that are not numbers. *)
Definition malformedWorld : World :=
  world [("MAX_RETRIES", "two"); ("CONCURRENCY", "many"); ("DB_PORT", "default")]
    (fun _ => unreachable) (fun _ _ => unreachable) (fun _ => 7) noRecords.

Definition threeFiles : list FileLocator := [fileA; fileB; fileC].

(** The files are refused with status 403. *)
Definition forbiddenWorld : World :=
  world [] (fun _ => ok oneMatch)
    (fun _ _ => Response 403 (mkBody "rate limit exceeded" None))
    (fun _ => 7) noRecords.

(** A text of [n + 1] characters that is not JSON. *)
Fixpoint filler (n : nat) : string :=
  match n with
  | O => ""
  | S k => String "x" (filler k)
  end.

Definition junk (n : nat) : string := String "{" (filler n).

(** Every file has the content [data]. *)
Definition servingWorld (data : string) : World :=
  world [] (fun _ => ok oneMatch) (fun _ _ => ok data) (fun _ => 7) noRecords.

(** Two files and a pool of one slot. *)
Definition narrowWorld : World :=
  world [("CONCURRENCY", "1")] (fun _ => ok twoMatches)
    (fun i _ => match i with O => ok textA | _ => ok textB end)
    (fun _ => 7) noRecords.


End Examples.

(* ================================================================== *)
(** ** Package repo: the PostgreSQL store ([repo.PostgresRepo]) *)

Module Repo.

(** The table [vulnerabilities] of [initSchema]: its rows, whose primary key
    is [(id, source_file)]. *)
Definition Table := list Vulnerabality.

(** What the database answers during one call, no other transaction
    touching the table meanwhile.  A statement can fail for a
    reason the caller does not see beforehand (a value that does not fit its
    column, a lost connection); a value is stored as the type of its column
    allows ([DECIMAL(4,1)], [TIMESTAMP], [VARCHAR(n)]), which [coerce]
    stands for. *)
Record Driver : Type := mkDriver {
  beginTx : option error;                         (* r.db.BeginTx *)
  prepare : option error;                         (* tx.PrepareContext *)
  exec : nat -> Vulnerabality -> option error;    (* stmt.ExecContext, k-th record *)
  commit : option error;                          (* tx.Commit *)
  coerce : Vulnerabality -> Vulnerabality;        (* the row as its columns hold it *)
  query : option error;                           (* r.db.QueryContext *)
  delivered : option nat;                         (* rows.Next stops early, after n rows *)
  scan : nat -> option error                      (* rows.Scan, k-th row *)
}.

(** [(id, source_file)], the columns of [ON CONFLICT] and of the primary key. *)
Definition key (v : Vulnerabality) : string * string := (ID v, SourceFile v).

Definition key_eqb (a b : string * string) : bool :=
  (fst a =? fst b)%string && (snd a =? snd b)%string.

(** [INSERT ... ON CONFLICT (id, source_file) DO UPDATE SET ...]: every
    column that is not of the key is set from the new values, so the row of
    that key becomes the new row; without a conflict the row is added. *)
Fixpoint upsert (row : Vulnerabality) (table : Table) : Table :=
  match table with
  | [] => [row]
  | r :: rest =>
    if key_eqb (key r) (key row) then row :: rest else r :: upsert row rest
  end.

(** The loop of [SaveVulnerabilities] from the [k]-th record on, inside the
    transaction: the error of the first statement that fails, or the table
    as the transaction leaves it. *)
Fixpoint execAll (d : Driver) (k : nat) (vulnerabilities : list Vulnerabality)
    (tx : Table) : error + Table :=
  match vulnerabilities with
  | [] => inr tx
  | vuln :: rest =>
    match exec d k vuln with
    | Some err => inl err
    | None => execAll d (S k) rest (upsert (coerce d vuln) tx)
    end
  end.

(** [SaveVulnerabilities]: the error returned and the table afterwards.  The
    deferred function rolls back when [err] is set and commits otherwise;
    the result of [tx.Commit()] is assigned to [err] after the [return nil]
    has fixed what is returned.  A commit that fails leaves the table as it
    was. *)
Definition SaveVulnerabilities (d : Driver) (table : Table)
    (vulnerabilities : list Vulnerabality) : option error * Table :=
  match beginTx d with
  | Some err => (Some err, table)
  | None =>
    match prepare d with
    | Some err => (Some err, table)                (* tx.Rollback() *)
    | None =>
      match execAll d 0 vulnerabilities table with
      | inl err => (Some err, table)               (* tx.Rollback() *)
      | inr tx =>
        match commit d with
        | Some _ => (None, table)
        | None => (None, tx)
        end
      end
    end
  end.

(** [ORDER BY scan_time DESC]: a row goes before the rows that are not more
    recent than it.  (The order of rows of one [scan_time] is the choice of
    the database; here they keep the order of the table.  Nothing proved
    below depends on it.) *)
Fixpoint insertDesc (row : Vulnerabality) (sorted : list Vulnerabality)
    : list Vulnerabality :=
  match sorted with
  | [] => [row]
  | r :: rest =>
    if ScanTime r <=? ScanTime row then row :: r :: rest
    else r :: insertDesc row rest
  end.

Definition orderByScanTimeDesc (rows : list Vulnerabality) : list Vulnerabality :=
  fold_right insertDesc [] rows.

(** [WHERE severity=$1 ORDER BY scan_time DESC]. *)
Definition selected (table : Table) (severity : string) : list Vulnerabality :=
  orderByScanTimeDesc (filter (fun r => (Severity r =? severity)%string) table).

(** The loop over [rows.Next()], from the [k]-th row on. *)
Fixpoint scanAll (d : Driver) (k : nat) (rows vulnerabilities : list Vulnerabality)
    : list Vulnerabality * option error :=
  match rows with
  | [] => (vulnerabilities, None)
  | row :: rest =>
    match scan d k with
    | Some err => ([], Some err)                   (* return nil, err *)
    | None => scanAll d (S k) rest (vulnerabilities ++ [row])
    end
  end.

(** [GetVulnerabilities].  [rows.Err()] is not looked at after the loop. *)
Definition GetVulnerabilities (d : Driver) (table : Table) (severity : string)
    : list Vulnerabality * option error :=
  match query d with
  | Some err => ([], Some err)
  | None =>
    let rows := selected table severity in
    let rows := match delivered d with
                | Some n => firstn n rows
                | None => rows
                end in
    scanAll d 0 rows []
  end.

(** The row a table holds for a key. *)
Fixpoint lookup (k : string * string) (table : Table) : option Vulnerabality :=
  match table with
  | [] => None
  | r :: rest => if key_eqb (key r) k then Some r else lookup k rest
  end.

(** The last record of a batch that has a given key. *)
Fixpoint lastWrite (k : string * string) (rows : list Vulnerabality)
    : option Vulnerabality :=
  match rows with
  | [] => None
  | r :: rest =>
    match lastWrite k rest with
    | Some r' => Some r'
    | None => if key_eqb (key r) k then Some r else None
    end
  end.

(** Rows from the most recent to the least recent. *)
Fixpoint descending (rows : list Vulnerabality) : Prop :=
  match rows with
  | [] => True
  | r :: rest => Forall (fun r' => ScanTime r' <= ScanTime r) rest /\ descending rest
  end.

(** A database that does what it is asked. *)
Definition reliable (d : Driver) : Prop :=
  beginTx d = None /\ prepare d = None /\ (forall k v, exec d k v = None) /\
  commit d = None.

Definition readable (d : Driver) : Prop :=
  query d = None /\ delivered d = None /\ (forall k, scan d k = None).

End Repo.

(* ================================================================== *)
(** ** Package controller: the two handlers *)

Module Controller.

(** [repo.ScanRequestBody]. *)
Record ScanRequestBody : Type := mkScanRequestBody {
  Repo : string;
  Files : list string
}.

(** The argument of a call of [c.JSON]: an object with the key [error] (a
    text, and the error whose message is appended to it), a scan result, or
    a list of records. *)
Inductive Payload : Type :=
| ErrorText (text : string) (cause : option error)
| Summary (result : ScanResult)
| Records (vulnerabilities : list Vulnerabality).

(** A call of [c.JSON](status, payload). *)
Definition Reply : Type := (Z * Payload)%type.

Definition StatusAccepted : Z := 202.
Definition StatusBadRequest : Z := 400.
Definition StatusInternalServerError : Z := 500.

(** The handler of [POST /scan].  [bind] is what [c.BindJSON(&reqBody)]
    leaves in [reqBody] and the error it returns.  The result is the calls
    of [c.JSON] in order, with the events of the service; [None] when the
    schedule does not run the service to its end. *)
Definition Scan (w : World) (bind : ScanRequestBody * option error)
    (schedule : list Move) : option (run (list Reply) * list Event) :=
  let '(reqBody, err) := bind in
  match err with
  | Some e =>
    Some (Ok [(StatusBadRequest, ErrorText "Invalid request format: " (Some e))], [])
  | None =>
    if (Repo reqBody =? "")%string then
      Some (Ok [(StatusBadRequest, ErrorText "Repository name is required" None)], [])
    else
      match Scan w (Repo reqBody) (Files reqBody) schedule with
      | None => None
      | Some (Ok results, evs) => Some (Ok [(StatusOK, Summary results)], evs)
      | Some (Err e, evs) =>
        Some (Ok [(StatusInternalServerError, ErrorText "Scan failed: " (Some e))], evs)
      | Some (Fatal msg, evs) => Some (Fatal msg, evs)
      | Some (Panic msg, evs) => Some (Panic msg, evs)
      end
  end.

(** The handler of [POST /query].  [bind] is [body.Filters.Severity] after
    [c.BindJSON(&body)] and the error it returns.  There is no [return]
    after the reply to an error of [service.Filter]. *)
Definition Query (w : World) (bind : string * option error) : run (list Reply) :=
  let '(severity, err) := bind in
  match err with
  | Some e => Ok [(StatusBadRequest, ErrorText "Query Failed: " (Some e))]
  | None =>
    if (severity =? "")%string then
      Ok [(StatusBadRequest,
           ErrorText "Severity must be a valid non-empty string" None)]
    else
      match Filter w severity with
      | Ok vulnerabilities => Ok [(StatusAccepted, Records vulnerabilities)]
      | Err e =>
        Ok [(StatusBadRequest, ErrorText "" (Some e));
            (StatusAccepted, Records [])]          (* vulnerabilities is nil *)
      | Fatal msg => Fatal msg
      | Panic msg => Panic msg
      end
  end.

End Controller.

(* ================================================================== *)
(** ** Further notions and examples *)

(** With one slot the units finish in the order of the items: the finished
    units, the one in [processFile] if any, and those to submit make up the
    numbered items, in this order. *)
Definition inOrder (w : World) (token : string) (items : list FileLocator)
    (s : PoolState) : Prop :=
  exists finished,
    numbered items = (finished ++ running (workers s) ++ toSubmit s)%list /\
    processedFiles s = okPaths w token finished /\
    errorsOccurred s = failures w token finished.

(** Nothing has been submitted yet (or can be). *)
Definition idle (s : PoolState) : Prop :=
  workers s = [] /\ pool s = 0%nat.

Module MoreExamples.

Import Examples.

(** A negative number of retries. *)
Definition noAttemptWorld : World :=
  world [("MAX_RETRIES", "-1")] (fun _ => ok oneMatch) (fun _ _ => ok textA)
    (fun _ => 7) noRecords.

(** The body of the file breaks off after [[]] at the first attempt; the
    host cannot be reached afterwards. *)
Definition brokenOffWorld : World :=
  world [] (fun _ => ok oneMatch)
    (fun _ attempt =>
       if attempt =? 0
       then Response StatusOK (mkBody "[]" (Some (ExternalError "unexpected EOF")))
       else unreachable)
    (fun _ => 7) noRecords.

(** The body of the file breaks off after [[]] at every attempt. *)
Definition cutBodyWorld : World :=
  world [] (fun _ => ok oneMatch)
    (fun _ _ =>
       Response StatusOK (mkBody "[]" (Some (ExternalError "unexpected EOF"))))
    (fun _ => 7) noRecords.

(** A pool without a slot. *)
Definition noSlotWorld : World :=
  world [("CONCURRENCY", "0")] (fun _ => ok twoMatches)
    (fun i _ => match i with O => ok textA | _ => ok textB end)
    (fun _ => 7) noRecords.

(** The database cannot be opened. *)
Definition noDatabaseWorld : World :=
  mkWorld (lookupEnv []) scanDecimal "token" false
    (fun _ => Some (ExternalError "connection refused"))
    (fun _ _ _ => unreachable) decodeSearch (fun _ _ _ _ => unreachable)
    decodePayload (fun _ => 7) 100 (fun _ _ => None) noRecords.

(** The token is not set. *)
Definition noTokenWorld : World :=
  mkWorld (lookupEnv []) scanDecimal "" true (fun _ => None)
    (fun _ _ _ => unreachable) decodeSearch (fun _ _ _ _ => unreachable)
    decodePayload (fun _ => 7) 100 (fun _ _ => None) noRecords.

End MoreExamples.

Module RepoExamples.

(** A database that never fails and stores the values as they are. *)
Definition honest : Repo.Driver :=
  Repo.mkDriver None None (fun _ _ => None) None (fun v => v) None None
    (fun _ => None).

(** The statement of the second record fails. *)
Definition failingSecond : Repo.Driver :=
  Repo.mkDriver None None
    (fun k _ => match k with
                | 1%nat => Some (ExternalError "value too long for type character varying(50)")
                | _ => None
                end)
    None (fun v => v) None None (fun _ => None).

(** The commit fails. *)
Definition lostCommit : Repo.Driver :=
  Repo.mkDriver None None (fun _ _ => None)
    (Some (ExternalError "driver: bad connection")) (fun v => v) None None
    (fun _ => None).

(** The connection is lost after the first row of an answer. *)
Definition cutAfterOne : Repo.Driver :=
  Repo.mkDriver None None (fun _ _ => None) None (fun v => v) None (Some 1%nat)
    (fun _ => None).

(** The second row of an answer cannot be read. *)
Definition unreadableSecond : Repo.Driver :=
  Repo.mkDriver None None (fun _ _ => None) None (fun v => v) None None
    (fun k => match k with
              | 1%nat => Some (ExternalError "sql: Scan error on column index 2")
              | _ => None
              end).

Definition row (id severity file : string) (scanTime : Time) : Vulnerabality :=
  mkVulnerabality id severity "0" "" "" "" "" "" 0 "" [] file scanTime.

Definition first : Vulnerabality := row "CVE-2024-1234" "HIGH" "scans/a.json" 5.
Definition second : Vulnerabality := row "CVE-2024-5678" "HIGH" "scans/a.json" 7.
(** The record [first] again, from a later scan and with another severity. *)
Definition firstAgain : Vulnerabality := row "CVE-2024-1234" "LOW" "scans/a.json" 9.

End RepoExamples.

(* ================================================================== *)
(** ** Configuration: proofs *)

Lemma getEnvAsIntOrDefault_unset (w : World) (key : string) (d : Z) :
  Getenv w key = "" -> getEnvAsIntOrDefault w key d = d.
Proof.
  intros H. unfold getEnvAsIntOrDefault. rewrite H. reflexivity.
Qed.

Lemma getEnvAsIntOrDefault_nonNumeric (w : World) (key : string) (d : Z) :
  nonNumeric w key -> getEnvAsIntOrDefault w key d = 0.
Proof.
  intros [Hset Hscan]. unfold getEnvAsIntOrDefault.
  apply String.eqb_neq in Hset. rewrite Hset, Hscan. reflexivity.
Qed.

Lemma getEnvAsIntOrDefault_numeric (w : World) (key : string) (d n : Z) :
  Getenv w key <> "" -> Sscanf_d w (Getenv w key) = Some n ->
  getEnvAsIntOrDefault w key d = n.
Proof.
  intros Hset Hscan. unfold getEnvAsIntOrDefault.
  apply String.eqb_neq in Hset. rewrite Hset, Hscan. reflexivity.
Qed.

(** With a pool of size 0 the send of line 234 never goes through. *)
Lemma step_Submit_blocked (w : World) (token : string) (capacity : Z)
    (s : PoolState) :
  capacity <= Z.of_nat (pool s) -> step w token capacity Submit s = None.
Proof.
  intros H. unfold step. destruct (toSubmit s) as [|[i item] rest]; [reflexivity|].
  destruct (Z.ltb_spec (Z.of_nat (pool s)) capacity); [lia|reflexivity].
Qed.

(** C10: each of the integer settings MAX_RETRIES, CONCURRENCY and DB_PORT
    has its documented default (2, 3, 5432) when the variable is unset or
    empty, and is 0, not the default, when the variable is set to a string
    from which no integer is read; the pipeline then makes one attempt and
    no retry, and its pool has size 0, so that no unit is ever admitted. *)
Theorem integer_settings_default_or_zero (w : World) :
  (Getenv w "MAX_RETRIES" = "" -> MAX_RETRIES w = 2) /\
  (Getenv w "CONCURRENCY" = "" -> CONCURRENCY w = 3) /\
  (Getenv w "DB_PORT" = "" -> DB_PORT w = 5432) /\
  (nonNumeric w "MAX_RETRIES" -> MAX_RETRIES w = 0 /\ iterations w = 1%nat) /\
  (nonNumeric w "CONCURRENCY" ->
     CONCURRENCY w = 0 /\
     forall token s, step w token (CONCURRENCY w) Submit s = None) /\
  (nonNumeric w "DB_PORT" -> DB_PORT w = 0) /\
  (forall key d, nonNumeric w key -> getEnvAsIntOrDefault w key d = 0).
Proof.
  repeat split.
  - apply getEnvAsIntOrDefault_unset.
  - apply getEnvAsIntOrDefault_unset.
  - apply getEnvAsIntOrDefault_unset.
  - now apply getEnvAsIntOrDefault_nonNumeric.
  - unfold iterations, MAX_RETRIES.
    rewrite (getEnvAsIntOrDefault_nonNumeric _ _ _ H). reflexivity.
  - now apply getEnvAsIntOrDefault_nonNumeric.
  - intros token s. apply step_Submit_blocked. unfold CONCURRENCY.
    rewrite (getEnvAsIntOrDefault_nonNumeric _ _ _ H). lia.
  - now apply getEnvAsIntOrDefault_nonNumeric.
  - intros key d. apply getEnvAsIntOrDefault_nonNumeric.
Qed.

Lemma malformed_settings_nonNumeric :
  nonNumeric Examples.malformedWorld "MAX_RETRIES" /\
  nonNumeric Examples.malformedWorld "CONCURRENCY" /\
  nonNumeric Examples.malformedWorld "DB_PORT".
Proof.
  repeat split; try discriminate; reflexivity.
Qed.

Lemma integer_settings_default_or_zero_witness :
  (MAX_RETRIES Examples.offlineWorld = 2 /\
   CONCURRENCY Examples.offlineWorld = 3 /\
   DB_PORT Examples.offlineWorld = 5432) /\
  (MAX_RETRIES Examples.malformedWorld = 0 /\
   CONCURRENCY Examples.malformedWorld = 0 /\
   DB_PORT Examples.malformedWorld = 0).
Proof.
  split.
  - destruct (integer_settings_default_or_zero Examples.offlineWorld)
      as (H1 & H2 & H3 & _).
    split; [apply H1; reflexivity | split; [apply H2 | apply H3]; reflexivity].
  - destruct (integer_settings_default_or_zero Examples.malformedWorld)
      as (_ & _ & _ & H1 & H2 & H3 & _).
    destruct malformed_settings_nonNumeric as (N1 & N2 & N3).
    split; [apply (H1 N1) | split; [apply (H2 N2) | apply (H3 N3)]].
Defined.

(* ================================================================== *)
(** ** The search query: proofs *)

Lemma append_assoc (a b c : string) : (a ++ b) ++ c = a ++ (b ++ c).
Proof.
  induction a as [|x a IH]; simpl; [reflexivity | now rewrite IH].
Qed.

Lemma append_empty_r (a : string) : a ++ "" = a.
Proof.
  induction a as [|x a IH]; simpl; [reflexivity | now rewrite IH].
Qed.

Lemma fold_addFilename (hints : list string) (url : string) :
  fold_left addFilename hints url = url ++ joined (map filenameTerm hints).
Proof.
  revert url. induction hints as [|h hints IH]; intros url; simpl.
  - now rewrite append_empty_r.
  - rewrite IH. unfold addFilename, filenameTerm.
    now rewrite !append_assoc.
Qed.

Lemma filenameTerm_not_extensionTerm (hint : string) :
  filenameTerm hint <> extensionTerm.
Proof.
  unfold filenameTerm, extensionTerm. simpl. discriminate.
Qed.

(** C5: for a non-empty repository identifier the query is the endpoint,
    the repository restriction and the terms of the filter: with hints, one
    term [+filename:<hint>.json] per hint, in order, and no extension term;
    without hints, the single term [+extension:json].  No query carries
    both kinds of term. *)
Theorem buildGitHubSearchURL_filter (w : World) (repo : string)
    (hints : list string) :
  repo <> "" ->
  buildGitHubSearchURL w repo hints
    = Ok (GITHUB_API w ++ "?q=repo:" ++ repo ++ joined (queryTerms hints)) /\
  (hints <> [] ->
     queryTerms hints = map filenameTerm hints /\
     ~ In extensionTerm (queryTerms hints)) /\
  (hints = [] -> queryTerms hints = [extensionTerm]).
Proof.
  intros Hrepo. apply String.eqb_neq in Hrepo. split; [|split].
  - unfold buildGitHubSearchURL. rewrite Hrepo.
    destruct hints as [|h hints].
    + simpl. now rewrite !append_assoc.
    + cbv zeta. rewrite fold_addFilename.
      change (length (h :: hints) =? 0)%nat with false. cbv iota.
      unfold queryTerms. now rewrite !append_assoc.
  - intros Hne. destruct hints as [|h hints]; [contradiction|].
    split; [reflexivity|].
    unfold queryTerms. intros Hin. apply in_map_iff in Hin.
    destruct Hin as (x & Hx & _). now apply filenameTerm_not_extensionTerm in Hx.
  - intros ->. reflexivity.
Qed.

Lemma buildGitHubSearchURL_filter_witness :
  buildGitHubSearchURL Examples.emptyWorld "o/r" ["a"; "b"]
    = Ok "https://api.github.com/search/code?q=repo:o/r+filename:a.json+filename:b.json" /\
  buildGitHubSearchURL Examples.emptyWorld "o/r" []
    = Ok "https://api.github.com/search/code?q=repo:o/r+extension:json".
Proof.
  split.
  - refine (proj1 (buildGitHubSearchURL_filter Examples.emptyWorld "o/r" ["a"; "b"] _)).
    discriminate.
  - refine (proj1 (buildGitHubSearchURL_filter Examples.emptyWorld "o/r" [] _)).
    discriminate.
Defined.

(* ================================================================== *)
(** ** The retry loops: proofs *)

Section Retry.

Variable w : World.

Lemma searchLoop_all_fail (url token : string) (n : nat) :
  forall (attempt : Z) (response : SearchResponse),
  (forall a, attempt <= a < attempt + Z.of_nat n ->
             searchAttemptFails w url token a) ->
  searchLoop w url token n attempt response
    = (None, attemptsFrom EvSearchAttempt n attempt).
Proof.
  induction n as [|n IH]; intros attempt response Hfail; [reflexivity|].
  assert (Hnext : forall response',
            searchLoop w url token n (attempt + 1) response'
              = (None, attemptsFrom EvSearchAttempt n (attempt + 1))).
  { intros response'. apply IH. intros a Ha. apply Hfail. lia. }
  assert (Hnow : searchAttemptFails w url token attempt) by (apply Hfail; lia).
  unfold searchAttemptFails in Hnow.
  cbn [searchLoop attemptsFrom]. unfold backoff.
  destruct (searchHttp w url token attempt) as [e|e|status body].
  - rewrite Hnext. now rewrite <- app_assoc.
  - rewrite Hnext. now rewrite <- app_assoc.
  - destruct (negb (status =? StatusOK)) eqn:Hstatus.
    + rewrite Hnext. now rewrite <- app_assoc.
    + destruct (bodyErr body) as [e|] eqn:Hbody.
      * rewrite Hnext. now rewrite <- app_assoc.
      * destruct Hnow as [Hnow|Hnow].
        { simpl in Hnow. rewrite Hstatus, Hbody in Hnow. discriminate. }
        specialize (Hnow response).
        destruct (unmarshalSearch w response (bodyData body)) as [response' [e|]].
        -- rewrite Hnext. now rewrite <- app_assoc.
        -- now elim Hnow.
Qed.

Lemma downloadLoop_all_fail (i : nat) (item : FileLocator) (token : string)
    (n : nat) :
  forall (attempt : Z) (data : string),
  (forall a, attempt <= a < attempt + Z.of_nat n ->
             failedExchange (fileHttp w i item token a) = true) ->
  snd (downloadLoop w i item token n attempt data)
    = attemptsFrom (EvFetchAttempt i) n attempt.
Proof.
  induction n as [|n IH]; intros attempt data Hfail; [reflexivity|].
  assert (Hnext : forall data',
            snd (downloadLoop w i item token n (attempt + 1) data')
              = attemptsFrom (EvFetchAttempt i) n (attempt + 1)).
  { intros data'. apply IH. intros a Ha. apply Hfail. lia. }
  assert (Hnow : failedExchange (fileHttp w i item token attempt) = true)
    by (apply Hfail; lia).
  cbn [downloadLoop attemptsFrom]. unfold backoff.
  destruct (fileHttp w i item token attempt) as [e|e|status body].
  - specialize (Hnext data).
    destruct (downloadLoop w i item token n (attempt + 1) data) as [d evs].
    simpl in *. subst evs. now rewrite <- app_assoc.
  - specialize (Hnext data).
    destruct (downloadLoop w i item token n (attempt + 1) data) as [d evs].
    simpl in *. subst evs. now rewrite <- app_assoc.
  - destruct (negb (status =? StatusOK)) eqn:Hstatus.
    + specialize (Hnext data).
      destruct (downloadLoop w i item token n (attempt + 1) data) as [d evs].
      simpl in *. subst evs. now rewrite <- app_assoc.
    + destruct (bodyErr body) as [e|] eqn:Hbody.
      * specialize (Hnext (bodyData body)).
        destruct (downloadLoop w i item token n (attempt + 1) (bodyData body))
          as [d evs].
        simpl in *. subst evs. now rewrite <- app_assoc.
      * simpl in Hnow. rewrite Hstatus, Hbody in Hnow. discriminate.
Qed.

Lemma downloadLoop_keeps_data (i : nat) (item : FileLocator) (token : string)
    (n : nat) :
  forall (attempt : Z) (data : string),
  (forall a, attempt <= a < attempt + Z.of_nat n ->
             failedWithoutBody (fileHttp w i item token a) = true) ->
  fst (downloadLoop w i item token n attempt data) = data.
Proof.
  induction n as [|n IH]; intros attempt data Hfail; [reflexivity|].
  assert (Hnext : fst (downloadLoop w i item token n (attempt + 1) data) = data).
  { apply IH. intros a Ha. apply Hfail. lia. }
  assert (Hnow : failedWithoutBody (fileHttp w i item token attempt) = true)
    by (apply Hfail; lia).
  cbn [downloadLoop].
  destruct (fileHttp w i item token attempt) as [e|e|status body];
    simpl in Hnow; try rewrite Hnow;
    destruct (downloadLoop w i item token n (attempt + 1) data) as [d evs];
    exact Hnext.
Qed.

Lemma failedWithoutBody_failedExchange (o : HttpOutcome) :
  failedWithoutBody o = true -> failedExchange o = true.
Proof.
  destruct o as [e|e|status body]; simpl; auto.
  intros ->. reflexivity.
Qed.

(** The events of [processFile]: those of the loop, then the decode and at
    most one write. *)
Lemma processFile_events (i : nat) (item : FileLocator) (token : string) :
  exists rest,
    snd (processFile w i item token)
      = (snd (downloadLoop w i item token (iterations w) 0 "")
           ++ EvUnmarshal i (fst (downloadLoop w i item token (iterations w) 0 ""))
           :: rest)%list /\
    (rest = [] \/ exists rs, rest = [EvSave i rs]).
Proof.
  unfold processFile.
  destruct (downloadLoop w i item token (iterations w) 0 "") as [data evs].
  destruct (unmarshalPayload w data) as [fileContent [e|]]; simpl.
  - exists []. split; [reflexivity | now left].
  - destruct (0 <? length (collect (Path item) (nowInUnit w i) fileContent))%nat.
    + destruct (SaveVulnerabilities w i _); simpl;
        (eexists; split; [rewrite <- app_assoc; reflexivity | right; eauto]).
    + exists []. split; [reflexivity | now left].
Qed.

End Retry.

Lemma waits_attemptsFrom_search (n : nat) :
  forall attempt, 0 <= attempt ->
  waits 0 (attemptsFrom EvSearchAttempt n attempt)
    = map (fun k => attempt + Z.of_nat k) (seq 0 n).
Proof.
  induction n as [|n IH]; intros attempt Hpos; [reflexivity|].
  cbn [attemptsFrom seq map]. rewrite <- seq_shift, map_map.
  destruct (Z.ltb_spec 0 attempt).
  - cbn [app waits]. rewrite IH by lia. f_equal; [lia|].
    apply map_ext. intros k. lia.
  - cbn [app waits]. rewrite IH by lia. f_equal; [lia|].
    apply map_ext. intros k. lia.
Qed.

Lemma waits_attemptsFrom_fetch (i : nat) (n : nat) :
  forall attempt, 0 <= attempt ->
  waits 0 (attemptsFrom (EvFetchAttempt i) n attempt)
    = map (fun k => attempt + Z.of_nat k) (seq 0 n).
Proof.
  induction n as [|n IH]; intros attempt Hpos; [reflexivity|].
  cbn [attemptsFrom seq map]. rewrite <- seq_shift, map_map.
  destruct (Z.ltb_spec 0 attempt).
  - cbn [app waits]. rewrite IH by lia. f_equal; [lia|].
    apply map_ext. intros k. lia.
  - cbn [app waits]. rewrite IH by lia. f_equal; [lia|].
    apply map_ext. intros k. lia.
Qed.

Lemma count_attemptsFrom (mk : Z -> Event) (p : Event -> bool) (n : nat) :
  (forall a, p (mk a) = true) -> (forall k, p (EvSleep k) = false) ->
  forall attempt, length (filter p (attemptsFrom mk n attempt)) = n.
Proof.
  intros Hmk Hsleep. induction n as [|n IH]; intros attempt; [reflexivity|].
  cbn [attemptsFrom]. rewrite filter_app. cbn [filter]. rewrite Hmk.
  rewrite length_app. cbn [length]. rewrite IH.
  destruct (0 <? attempt); cbn [filter]; [rewrite Hsleep|]; reflexivity.
Qed.

Lemma waits_app_afterDownload (rest : list Event) :
  forallb afterDownload rest = true ->
  forall evs pending, waits pending (evs ++ rest) = waits pending evs.
Proof.
  intros Hrest. induction evs as [|e evs IH]; intros pending.
  - simpl. revert pending.
    induction rest as [|r rest IHr]; intros pending; [reflexivity|].
    simpl in Hrest. apply andb_prop in Hrest. destruct Hrest as [Hr Hrest].
    destruct r; simpl in Hr; try discriminate; simpl; now apply IHr.
  - destruct e; simpl; now rewrite IH.
Qed.

Lemma filter_none (A : Type) (p : A -> bool) (l : list A) :
  (forall x, In x l -> p x = false) -> filter p l = [].
Proof.
  induction l as [|x l IH]; intros H; [reflexivity|].
  simpl. rewrite (H x) by now left. apply IH. intros y Hy. apply H. now right.
Qed.

Lemma iterations_spec (w : World) :
  0 <= MAX_RETRIES w -> Z.of_nat (iterations w) = MAX_RETRIES w + 1.
Proof.
  intros H. unfold iterations. lia.
Qed.

(** X28: when every attempt fails, the search makes exactly MAX_RETRIES + 1
    attempts and then returns an error, and the download of a file makes
    exactly MAX_RETRIES + 1 attempts too; the wait before attempt k is k
    time units, none before attempt 0 (0, 1, 2 for MAX_RETRIES = 2).  Each
    of the two loops counts its own attempts from 0: what is said of the one
    holds whatever the other did.  After its attempts the download goes on
    to the decode: it returns an error when no attempt kept a body (each
    ended in a transport error or a status other than 200) and the decoder
    rejects the empty data, and that error is the one of the decode. *)
Theorem retry_budget (w : World) :
  0 <= MAX_RETRIES w ->
  Z.of_nat (iterations w) = MAX_RETRIES w + 1 /\
  (forall url token,
     (forall a, 0 <= a <= MAX_RETRIES w -> searchAttemptFails w url token a) ->
     snd (searchGitHubFiles w url token)
       = attemptsFrom EvSearchAttempt (iterations w) 0 /\
     length (filter isSearchAttempt (snd (searchGitHubFiles w url token)))
       = iterations w /\
     waits 0 (snd (searchGitHubFiles w url token))
       = map Z.of_nat (seq 0 (iterations w)) /\
     exists e, fst (searchGitHubFiles w url token) = Err e) /\
  (forall i item token,
     (forall a, 0 <= a <= MAX_RETRIES w ->
                failedExchange (fileHttp w i item token a) = true) ->
     (exists rest,
        snd (processFile w i item token)
          = (attemptsFrom (EvFetchAttempt i) (iterations w) 0 ++ rest)%list /\
        forallb afterDownload rest = true) /\
     length (filter (isFetchAttempt i) (snd (processFile w i item token)))
       = iterations w /\
     waits 0 (snd (processFile w i item token))
       = map Z.of_nat (seq 0 (iterations w)) /\
     ((forall a, 0 <= a <= MAX_RETRIES w ->
                 failedWithoutBody (fileHttp w i item token a) = true) ->
      rejectsEmpty w ->
      exists e, fst (processFile w i item token) = Some e)).
Proof.
  intros Hpos. pose proof (iterations_spec w Hpos) as Hn.
  split; [exact Hn|]. split.
  - intros url token Hfail.
    assert (Hloop : searchLoop w url token (iterations w) 0 (mkSearchResponse 0 [])
                    = (None, attemptsFrom EvSearchAttempt (iterations w) 0)).
    { apply searchLoop_all_fail. intros a Ha. apply Hfail. lia. }
    unfold searchGitHubFiles. rewrite Hloop. cbn [fst snd].
    split; [reflexivity|]. split; [|split].
    + apply count_attemptsFrom; reflexivity.
    + rewrite waits_attemptsFrom_search by lia. apply map_ext. intros k. lia.
    + eexists. reflexivity.
  - intros i item token Hfail.
    assert (Hloop : snd (downloadLoop w i item token (iterations w) 0 "")
                    = attemptsFrom (EvFetchAttempt i) (iterations w) 0).
    { apply downloadLoop_all_fail. intros a Ha. apply Hfail. lia. }
    destruct (processFile_events w i item token) as (rest & Hev & Hrest).
    rewrite Hloop in Hev.
    set (tail := (EvUnmarshal i
                    (fst (downloadLoop w i item token (iterations w) 0 ""))
                    :: rest)) in Hev.
    assert (Htail : forallb afterDownload tail = true).
    { unfold tail. destruct Hrest as [->|[rs ->]]; reflexivity. }
    assert (Hnone : filter (isFetchAttempt i) tail = []).
    { unfold tail. destruct Hrest as [->|[rs ->]]; reflexivity. }
    split; [exists tail; now split|]. split; [|split].
    + rewrite Hev, filter_app, Hnone, app_nil_r.
      apply count_attemptsFrom; [|reflexivity].
      intros a. simpl. apply Nat.eqb_refl.
    + rewrite Hev, waits_app_afterDownload by exact Htail.
      rewrite waits_attemptsFrom_fetch by lia. apply map_ext. intros k. lia.
    + intros Hnobody Hreject.
      assert (Hdata : fst (downloadLoop w i item token (iterations w) 0 "") = "").
      { apply downloadLoop_keeps_data. intros a Ha. apply Hnobody. lia. }
      unfold processFile.
      destruct (downloadLoop w i item token (iterations w) 0 "") as [data evs].
      simpl in Hdata. subst data. unfold rejectsEmpty in Hreject.
      destruct (unmarshalPayload w "") as [fileContent [e|]].
      * eexists. reflexivity.
      * now elim Hreject.
Qed.

Lemma retry_budget_witness :
  snd (searchGitHubFiles Examples.offlineWorld "url" "token")
    = [EvSearchAttempt 0; EvSleep 1; EvSearchAttempt 1; EvSleep 2;
       EvSearchAttempt 2] /\
  waits 0 (snd (processFile Examples.flakyWorld 0 Examples.fileA "token"))
    = [0; 1; 2] /\
  exists e, fst (processFile Examples.flakyWorld 0 Examples.fileA "token") = Some e.
Proof.
  assert (H0 : 0 <= MAX_RETRIES Examples.offlineWorld) by (vm_compute; discriminate).
  assert (H1 : 0 <= MAX_RETRIES Examples.flakyWorld) by (vm_compute; discriminate).
  destruct (retry_budget Examples.offlineWorld H0) as (_ & Hsearch & _).
  destruct (retry_budget Examples.flakyWorld H1) as (_ & _ & Hfetch).
  split; [|split].
  - refine (proj1 (Hsearch "url" "token" _)). intros a _. exact I.
  - refine (proj1 (proj2 (proj2 (Hfetch 0%nat Examples.fileA "token" _)))).
    intros a _. reflexivity.
  - refine (proj2 (proj2 (proj2 (Hfetch 0%nat Examples.fileA "token" _))) _ _).
    + intros a _. reflexivity.
    + intros a _. reflexivity.
    + vm_compute. discriminate.
Defined.

(* ================================================================== *)
(** ** processFile: proofs *)

Section ProcessFile.

Variable w : World.

Lemma collect_block (path : string) (t : Time) (rs acc : list Vulnerabality) :
  fold_left (fun vs payload => (vs ++ [set_ScanTime t (set_SourceFile path payload)])%list)
    rs acc
  = (acc ++ map (stamp path t) rs)%list.
Proof.
  revert acc. induction rs as [|r rs IH]; intros acc; simpl.
  - now rewrite app_nil_r.
  - rewrite IH, <- app_assoc. reflexivity.
Qed.

(** The loop of lines 343-353 keeps every record of every block, in order. *)
Lemma collect_spec (path : string) (t : Time) (fileContent : list ScanPayloads) :
  collect path t fileContent
    = map (stamp path t) (flat_map Vulnerabilities fileContent).
Proof.
  unfold collect.
  enough (H : forall acc,
             fold_left
               (fun vulnerabilities scanResult =>
                  if (length (Vulnerabilities scanResult) =? 0)%nat
                  then vulnerabilities
                  else fold_left
                         (fun vs payload =>
                            (vs ++ [set_ScanTime t (set_SourceFile path payload)])%list)
                         (Vulnerabilities scanResult) vulnerabilities)
               fileContent acc
             = (acc ++ map (stamp path t) (flat_map Vulnerabilities fileContent))%list)
    by apply (H []).
  induction fileContent as [|b bs IH]; intros acc; simpl.
  - now rewrite app_nil_r.
  - rewrite IH, map_app, app_assoc. f_equal.
    destruct (Vulnerabilities b) as [|r rs] eqn:Hb; simpl.
    + now rewrite app_nil_r.
    + rewrite collect_block, <- app_assoc. reflexivity.
Qed.

Lemma collect_stamped (path : string) (t : Time) (fileContent : list ScanPayloads) :
  Forall (fun v => SourceFile v = path /\ ScanTime v = t)
    (collect path t fileContent).
Proof.
  rewrite collect_spec. apply Forall_forall. intros v Hv.
  apply in_map_iff in Hv. destruct Hv as (x & <- & _). split; reflexivity.
Qed.

Lemma downloadLoop_events (i : nat) (item : FileLocator) (token : string)
    (n : nat) :
  forall attempt data,
  forallb (isLoopEvent i) (snd (downloadLoop w i item token n attempt data)) = true.
Proof.
  induction n as [|n IH]; intros attempt data; [reflexivity|].
  assert (Hpre : forallb (isLoopEvent i)
                   (backoff attempt ++ [EvFetchAttempt i attempt]) = true).
  { unfold backoff. destruct (0 <? attempt); simpl; now rewrite Nat.eqb_refl. }
  cbn [downloadLoop].
  destruct (fileHttp w i item token attempt) as [e|e|status body].
  - specialize (IH (attempt + 1) data).
    destruct (downloadLoop w i item token n (attempt + 1) data) as [d evs].
    cbn [snd] in *. now rewrite forallb_app, Hpre, IH.
  - specialize (IH (attempt + 1) data).
    destruct (downloadLoop w i item token n (attempt + 1) data) as [d evs].
    cbn [snd] in *. now rewrite forallb_app, Hpre, IH.
  - destruct (negb (status =? StatusOK)).
    + specialize (IH (attempt + 1) data).
      destruct (downloadLoop w i item token n (attempt + 1) data) as [d evs].
      cbn [snd] in *. now rewrite forallb_app, Hpre, IH.
    + destruct (bodyErr body).
      * specialize (IH (attempt + 1) (bodyData body)).
        destruct (downloadLoop w i item token n (attempt + 1) (bodyData body))
          as [d evs].
        cbn [snd] in *. now rewrite forallb_app, Hpre, IH.
      * exact Hpre.
Qed.

(** A download that succeeds at attempt [attempt + m], after [m] failures. *)
Lemma downloadLoop_succeeds (i : nat) (item : FileLocator) (token : string)
    (payload : string) (m : nat) :
  forall (n : nat) (attempt : Z) (data : string),
  (m < n)%nat ->
  (forall a, attempt <= a < attempt + Z.of_nat m ->
             failedExchange (fileHttp w i item token a) = true) ->
  fileHttp w i item token (attempt + Z.of_nat m)
    = Response StatusOK (mkBody payload None) ->
  downloadLoop w i item token n attempt data
    = (payload, attemptsFrom (EvFetchAttempt i) (S m) attempt).
Proof.
  induction m as [|m IH]; intros n attempt data Hlt Hfail Hok.
  - destruct n as [|n]; [lia|].
    replace (attempt + Z.of_nat 0) with attempt in Hok by lia.
    cbn [downloadLoop attemptsFrom]. rewrite Hok. unfold backoff.
    reflexivity.
  - destruct n as [|n]; [lia|].
    assert (Hnext : forall data',
              downloadLoop w i item token n (attempt + 1) data'
                = (payload, attemptsFrom (EvFetchAttempt i) (S m) (attempt + 1))).
    { intros data'. apply IH; [lia| |].
      - intros a Ha. apply Hfail. lia.
      - rewrite <- Hok. f_equal. lia. }
    assert (Hnow : failedExchange (fileHttp w i item token attempt) = true)
      by (apply Hfail; lia).
    cbn [downloadLoop]. unfold backoff.
    change (attemptsFrom (EvFetchAttempt i) (S (S m)) attempt)
      with ((if 0 <? attempt then [EvSleep attempt] else [])
              ++ EvFetchAttempt i attempt
              :: attemptsFrom (EvFetchAttempt i) (S m) (attempt + 1))%list.
    destruct (fileHttp w i item token attempt) as [e|e|status body].
    + rewrite Hnext. now rewrite <- app_assoc.
    + rewrite Hnext. now rewrite <- app_assoc.
    + destruct (negb (status =? StatusOK)) eqn:Hstatus.
      * rewrite Hnext. now rewrite <- app_assoc.
      * destruct (bodyErr body) as [e|] eqn:Hbody.
        -- rewrite Hnext. now rewrite <- app_assoc.
        -- simpl in Hnow. rewrite Hstatus, Hbody in Hnow. discriminate.
Qed.

(** [processFile] never returns the error of line 329. *)
Lemma processFile_never_DownloadFailed (i : nat) (item : FileLocator)
    (token : string) (n : Z) (cause : error) :
  fst (processFile w i item token) <> Some (DownloadFailed n cause).
Proof.
  unfold processFile.
  destruct (downloadLoop w i item token (iterations w) 0 "") as [data evs].
  destruct (unmarshalPayload w data) as [fileContent [e|]]; [discriminate|].
  destruct (0 <? length (collect (Path item) (nowInUnit w i) fileContent))%nat;
    [|discriminate].
  destruct (SaveVulnerabilities w i _); discriminate.
Qed.

(** What [processFile] writes: the stamped records of the decoded payload. *)
Lemma processFile_saves (i j : nat) (item : FileLocator) (token : string)
    (rs : list Vulnerabality) :
  In (EvSave j rs) (snd (processFile w i item token)) ->
  j = i /\
  Forall (fun v => SourceFile v = Path item /\ ScanTime v = nowInUnit w i) rs.
Proof.
  unfold processFile.
  pose proof (downloadLoop_events i item token (iterations w) 0 "") as Hloop.
  destruct (downloadLoop w i item token (iterations w) 0 "") as [data evs].
  cbn [snd] in Hloop. rewrite forallb_forall in Hloop.
  assert (Hevs : ~ In (EvSave j rs) (evs ++ [EvUnmarshal i data])).
  { intros Hin. apply in_app_or in Hin. destruct Hin as [Hin|[Hin|[]]].
    - apply Hloop in Hin. discriminate.
    - discriminate. }
  destruct (unmarshalPayload w data) as [fileContent [e|]]; cbn [snd].
  - intros Hin. now elim Hevs.
  - destruct (0 <? length (collect (Path item) (nowInUnit w i) fileContent))%nat.
    + assert (Hsave : In (EvSave j rs)
                        ((evs ++ [EvUnmarshal i data])
                           ++ [EvSave i (collect (Path item) (nowInUnit w i) fileContent)]) ->
                      j = i /\
                      Forall (fun v => SourceFile v = Path item /\ ScanTime v = nowInUnit w i) rs).
      { intros Hin. apply in_app_or in Hin. destruct Hin as [Hin|[Hin|[]]].
        - now elim Hevs.
        - injection Hin as <- <-. split; [reflexivity|apply collect_stamped]. }
      destruct (SaveVulnerabilities w i _); exact Hsave.
    + intros Hin. now elim Hevs.
Qed.

End ProcessFile.

(* ================================================================== *)
(** ** The worker pool: proofs *)

Lemma Phase_eqb_eq (p q : Phase) : Phase_eqb p q = true <-> p = q.
Proof.
  destruct p, q; simpl; split; intros H; try reflexivity; discriminate.
Qed.

Lemma advance_split (i : nat) (from to : Phase) (ws ws' : list Worker)
    (item : FileLocator) :
  advance i from to ws = Some (item, ws') ->
  exists l1 l2,
    ws = (l1 ++ mkWorker i item from :: l2)%list /\
    ws' = (l1 ++ mkWorker i item to :: l2)%list.
Proof.
  revert ws'. induction ws as [|x ws IH]; intros ws' H; [discriminate|].
  simpl in H. destruct (Nat.eqb_spec (wIdx x) i) as [Hi|Hi].
  - destruct (Phase_eqb (wPhase x) from) eqn:Hp; [|discriminate].
    apply Phase_eqb_eq in Hp. injection H as <- <-.
    exists [], ws. destruct x as [xi xitem xp]. simpl in *. subst. now split.
  - destruct (advance i from to ws) as [[item' rest']|]; [|discriminate].
    injection H as <- <-.
    destruct (IH rest' eq_refl) as (l1 & l2 & -> & ->).
    exists (x :: l1), l2. now split.
Qed.

Lemma retire_split (i : nat) (ws ws' : list Worker) :
  retire i ws = Some ws' ->
  exists l1 l2 item,
    ws = (l1 ++ mkWorker i item Released :: l2)%list /\ ws' = (l1 ++ l2)%list.
Proof.
  revert ws'. induction ws as [|x ws IH]; intros ws' H; [discriminate|].
  simpl in H. destruct (Nat.eqb_spec (wIdx x) i) as [Hi|Hi].
  - destruct (Phase_eqb (wPhase x) Released) eqn:Hp; [|discriminate].
    apply Phase_eqb_eq in Hp. injection H as <-.
    exists [], ws, (wItem x). destruct x as [xi xitem xp]. simpl in *. subst.
    now split.
  - destruct (retire i ws) as [rest'|]; [|discriminate].
    injection H as <-.
    destruct (IH rest' eq_refl) as (l1 & l2 & item & -> & ->).
    exists (x :: l1), l2, item. now split.
Qed.

Lemma filter_middle (A : Type) (p : A -> bool) (l1 l2 : list A) (x : A) :
  filter p (l1 ++ x :: l2)
    = (filter p l1 ++ (if p x then [x] else []) ++ filter p l2)%list.
Proof.
  rewrite filter_app. simpl. destruct (p x); reflexivity.
Qed.

Section Pool.

Variable w : World.
Variable token : string.
Variable capacity : Z.
Variable items : list FileLocator.

Lemma step_slotsHeld (m : Move) (s s' : PoolState) :
  slotsHeld capacity s -> step w token capacity m s = Some s' ->
  slotsHeld capacity s'.
Proof.
  intros [Hheld Hcap] Hstep. unfold slotsHeld. destruct m as [|i|i|i]; simpl in Hstep.
  - destruct (toSubmit s) as [|[i item] rest]; [discriminate|].
    destruct (Z.ltb_spec (Z.of_nat (pool s)) capacity); [|discriminate].
    injection Hstep as <-. simpl. rewrite filter_app, length_app. simpl.
    split; lia.
  - destruct (advance i InProcessFile Recorded (workers s)) as [[item ws]|] eqn:Ha;
      [|discriminate].
    apply advance_split in Ha. destruct Ha as (l1 & l2 & Hws & ->).
    rewrite Hws, filter_middle in Hheld.
    destruct (processFile w i item token) as [[e|] evs]; injection Hstep as <-;
      simpl in *; rewrite filter_middle; simpl;
      (split; [|assumption]); rewrite length_app in Hheld |- *;
      simpl in Hheld |- *; lia.
  - destruct (advance i Recorded Released (workers s)) as [[item ws]|] eqn:Ha;
      [|discriminate].
    destruct (pool s) as [|n] eqn:Hpool; [discriminate|].
    injection Hstep as <-. simpl.
    apply advance_split in Ha. destruct Ha as (l1 & l2 & Hws & ->).
    rewrite Hws, filter_middle in Hheld. rewrite filter_middle.
    simpl in Hheld |- *. rewrite length_app in Hheld |- *.
    simpl in Hheld. split; lia.
  - destruct (retire i (workers s)) as [ws|] eqn:Hr; [|discriminate].
    injection Hstep as <-. simpl.
    apply retire_split in Hr. destruct Hr as (l1 & l2 & item & Hws & ->).
    rewrite Hws, filter_middle in Hheld. rewrite filter_app.
    simpl in Hheld |- *. rewrite length_app in Hheld |- *.
    split; lia.
Qed.

Lemma running_le_holders (ws : list Worker) :
  (length (filter inProcessFile ws) <= length (filter holdsSlot ws))%nat.
Proof.
  induction ws as [|x ws IH]; [reflexivity|].
  destruct x as [xi xitem []]; simpl; lia.
Qed.

Lemma step_wellNumbered (m : Move) (s s' : PoolState) :
  wellNumbered items s -> step w token capacity m s = Some s' ->
  wellNumbered items s'.
Proof.
  intros [Hsub Hws] Hstep. unfold wellNumbered.
  destruct m as [|i|i|i]; simpl in Hstep.
  - destruct (toSubmit s) as [|[i item] rest] eqn:Hts; [discriminate|].
    destruct (Z.of_nat (pool s) <? capacity); [|discriminate].
    injection Hstep as <-. simpl. split.
    + intros u Hu. apply Hsub. now right.
    + intros x Hx. apply in_app_or in Hx. destruct Hx as [Hx|[<-|[]]].
      * now apply Hws.
      * apply (Hsub (i, item)). now left.
  - destruct (advance i InProcessFile Recorded (workers s)) as [[item ws]|] eqn:Ha;
      [|discriminate].
    apply advance_split in Ha. destruct Ha as (l1 & l2 & Hw & ->).
    assert (Hws' : forall x, In x (l1 ++ mkWorker i item Recorded :: l2) ->
                             nth_error items (wIdx x) = Some (wItem x)).
    { intros x Hx. apply in_app_or in Hx. destruct Hx as [Hx|[<-|Hx]].
      - apply Hws. rewrite Hw. apply in_or_app. now left.
      - apply (Hws (mkWorker i item InProcessFile)). rewrite Hw.
        apply in_or_app. right. now left.
      - apply Hws. rewrite Hw. apply in_or_app. right. now right. }
    destruct (processFile w i item token) as [[e|] evs]; injection Hstep as <-;
      simpl; now split.
  - destruct (advance i Recorded Released (workers s)) as [[item ws]|] eqn:Ha;
      [|discriminate].
    destruct (pool s) as [|n]; [discriminate|].
    injection Hstep as <-. simpl.
    apply advance_split in Ha. destruct Ha as (l1 & l2 & Hw & ->).
    split; [assumption|].
    intros x Hx. apply in_app_or in Hx. destruct Hx as [Hx|[<-|Hx]].
    + apply Hws. rewrite Hw. apply in_or_app. now left.
    + apply (Hws (mkWorker i item Recorded)). rewrite Hw.
      apply in_or_app. right. now left.
    + apply Hws. rewrite Hw. apply in_or_app. right. now right.
  - destruct (retire i (workers s)) as [ws|] eqn:Hr; [|discriminate].
    injection Hstep as <-. simpl.
    apply retire_split in Hr. destruct Hr as (l1 & l2 & item & Hw & ->).
    split; [assumption|].
    intros x Hx. apply Hws. rewrite Hw. apply in_app_or in Hx.
    apply in_or_app. destruct Hx as [Hx|Hx]; [now left | right; now right].
Qed.

End Pool.

Lemma running_app (l1 l2 : list Worker) :
  running (l1 ++ l2) = (running l1 ++ running l2)%list.
Proof.
  unfold running. now rewrite filter_app, map_app.
Qed.

Lemma running_cons (i : nat) (item : FileLocator) (p : Phase) (l : list Worker) :
  running (mkWorker i item p :: l)
    = match p with
      | InProcessFile => (i, item) :: running l
      | _ => running l
      end.
Proof.
  destruct p; reflexivity.
Qed.

Lemma okPaths_snoc (w : World) (token : string)
    (finished : list (nat * FileLocator)) (u : nat * FileLocator) :
  okPaths w token (finished ++ [u])
    = (okPaths w token finished
         ++ (if succeeded w token u then [Path (snd u)] else []))%list.
Proof.
  unfold okPaths. rewrite filter_app, map_app. simpl.
  destruct (succeeded w token u); reflexivity.
Qed.

Lemma failures_snoc (w : World) (token : string)
    (finished : list (nat * FileLocator)) (u : nat * FileLocator) :
  failures w token (finished ++ [u])
    = (failures w token finished
         ++ match unitResult w token u with
            | Some e => [ProcessingFailed (Path (snd u)) e]
            | None => []
            end)%list.
Proof.
  unfold failures. rewrite flat_map_app. simpl. now rewrite app_nil_r.
Qed.

Lemma numbered_nth (items : list FileLocator) :
  forall start u,
  In u (combine (seq start (length items)) items) ->
  (start <= fst u)%nat /\ nth_error items (fst u - start) = Some (snd u).
Proof.
  induction items as [|x items IH]; intros start u Hu; [contradiction|].
  simpl in Hu. destruct Hu as [<-|Hu].
  - simpl. rewrite Nat.sub_diag. split; [lia|reflexivity].
  - apply IH in Hu. destruct Hu as [Hle Hnth]. split; [lia|].
    replace (fst u - start)%nat with (S (fst u - S start)) by lia.
    exact Hnth.
Qed.

Section PoolInvariant.

Variable w : World.
Variable token : string.
Variable capacity : Z.
Variable items : list FileLocator.

Lemma step_accountsFor (m : Move) (s s' : PoolState)
    (finished : list (nat * FileLocator)) :
  accountsFor w token items s finished ->
  step w token capacity m s = Some s' ->
  exists finished', accountsFor w token items s' finished'.
Proof.
  intros (Hperm & Hok & Herr) Hstep. destruct m as [|i|i|i]; simpl in Hstep.
  - destruct (toSubmit s) as [|[i item] rest] eqn:Hts; [discriminate|].
    destruct (Z.of_nat (pool s) <? capacity); [|discriminate].
    injection Hstep as <-. exists finished. repeat split; try assumption.
    simpl. rewrite running_app, running_cons. change (running []) with (@nil (nat * FileLocator)).
    rewrite Hperm. simpl. rewrite <- app_assoc. simpl.
    rewrite !app_assoc. apply Permutation_middle.
  - destruct (advance i InProcessFile Recorded (workers s)) as [[item ws]|] eqn:Ha;
      [|discriminate].
    apply advance_split in Ha. destruct Ha as (l1 & l2 & Hw & ->).
    exists (finished ++ [(i, item)])%list.
    assert (Hperm' : Permutation (numbered items)
                       (toSubmit s
                          ++ running (l1 ++ mkWorker i item Recorded :: l2)
                          ++ finished ++ [(i, item)])).
    { rewrite Hperm, Hw, !running_app, !running_cons.
      apply Permutation_app_head.
      rewrite <- !app_assoc. apply Permutation_app_head. simpl.
      rewrite app_assoc. apply Permutation_cons_append. }
    unfold accountsFor. rewrite okPaths_snoc, failures_snoc.
    unfold succeeded, unitResult. cbn [fst snd].
    destruct (processFile w i item token) as [[e|] evs]; injection Hstep as <-;
      cbn [toSubmit workers processedFiles errorsOccurred fst];
      rewrite Hok, Herr, ?app_nil_r; repeat split; assumption.
  - destruct (advance i Recorded Released (workers s)) as [[item ws]|] eqn:Ha;
      [|discriminate].
    destruct (pool s) as [|n]; [discriminate|].
    injection Hstep as <-. exists finished.
    apply advance_split in Ha. destruct Ha as (l1 & l2 & Hw & ->).
    repeat split; try assumption. simpl.
    rewrite Hperm, Hw, !running_app, !running_cons. reflexivity.
  - destruct (retire i (workers s)) as [ws|] eqn:Hr; [|discriminate].
    injection Hstep as <-. exists finished.
    apply retire_split in Hr. destruct Hr as (l1 & l2 & item & Hw & ->).
    repeat split; try assumption. simpl.
    rewrite Hperm, Hw, !running_app, !running_cons. reflexivity.
Qed.

Lemma step_stamped (m : Move) (s s' : PoolState) :
  wellNumbered items s -> Forall (stamped w items) (events s) ->
  step w token capacity m s = Some s' ->
  Forall (stamped w items) (events s').
Proof.
  intros [_ Hws] Hev Hstep. destruct m as [|i|i|i]; simpl in Hstep.
  - destruct (toSubmit s) as [|[i item] rest]; [discriminate|].
    destruct (Z.of_nat (pool s) <? capacity); [|discriminate].
    now injection Hstep as <-.
  - destruct (advance i InProcessFile Recorded (workers s)) as [[item ws]|] eqn:Ha;
      [|discriminate].
    apply advance_split in Ha. destruct Ha as (l1 & l2 & Hw & ->).
    assert (Hitem : nth_error items i = Some item).
    { apply (Hws (mkWorker i item InProcessFile)). rewrite Hw.
      apply in_or_app. right. now left. }
    assert (Hnew : Forall (stamped w items) (snd (processFile w i item token))).
    { apply Forall_forall. intros e He. destruct e; simpl; auto.
      apply processFile_saves in He. destruct He as [-> Hrs].
      exists item. now split. }
    destruct (processFile w i item token) as [[e|] evs]; injection Hstep as <-;
      simpl; apply Forall_app; now split.
  - destruct (advance i Recorded Released (workers s)) as [[item ws]|];
      [|discriminate].
    destruct (pool s) as [|n]; [discriminate|]. now injection Hstep as <-.
  - destruct (retire i (workers s)) as [ws|]; [|discriminate].
    now injection Hstep as <-.
Qed.

Lemma step_invariant (m : Move) (s s' : PoolState) :
  invariant w token capacity items s ->
  step w token capacity m s = Some s' ->
  invariant w token capacity items s'.
Proof.
  intros (Hslots & Hnum & [finished Hacc] & Hev) Hstep. repeat split.
  - eapply step_slotsHeld; eassumption.
  - eapply step_slotsHeld; eassumption.
  - eapply step_wellNumbered; eassumption.
  - eapply step_wellNumbered; eassumption.
  - eapply step_accountsFor; eassumption.
  - eapply step_stamped; eassumption.
Qed.

Lemma steps_invariant (schedule : list Move) :
  forall s s',
  invariant w token capacity items s ->
  steps w token capacity schedule s = Some s' ->
  invariant w token capacity items s'.
Proof.
  induction schedule as [|m schedule IH]; intros s s' Hinv Hsteps; simpl in Hsteps.
  - now injection Hsteps as <-.
  - destruct (step w token capacity m s) as [s1|] eqn:Hstep; [|discriminate].
    eapply IH; [|eassumption]. eapply step_invariant; eassumption.
Qed.

Lemma initial_invariant :
  0 <= capacity -> invariant w token capacity items (initial items).
Proof.
  intros Hcap. repeat split; simpl.
  - exact Hcap.
  - intros u Hu. apply numbered_nth in Hu. destruct Hu as [_ Hu].
    now rewrite Nat.sub_0_r in Hu.
  - intros x [].
  - exists []. repeat split. simpl. now rewrite app_nil_r.
  - constructor.
Qed.

End PoolInvariant.

Lemma okPaths_flat_map (w : World) (token : string)
    (l : list (nat * FileLocator)) :
  okPaths w token l
    = flat_map (fun u => if succeeded w token u then [Path (snd u)] else []) l.
Proof.
  unfold okPaths. induction l as [|u l IH]; [reflexivity|].
  simpl. destruct (succeeded w token u); simpl; now rewrite IH.
Qed.

Lemma okPaths_Permutation (w : World) (token : string)
    (l l' : list (nat * FileLocator)) :
  Permutation l l' -> Permutation (okPaths w token l) (okPaths w token l').
Proof.
  intros H. rewrite !okPaths_flat_map. now apply Permutation_flat_map.
Qed.

Lemma outcomes_length (w : World) (token : string)
    (l : list (nat * FileLocator)) :
  (length (okPaths w token l) + length (failures w token l) = length l)%nat.
Proof.
  unfold okPaths, failures, succeeded.
  induction l as [|u l IH]; [reflexivity|].
  simpl. destruct (unitResult w token u); simpl; rewrite ?length_app; simpl; lia.
Qed.

Lemma failures_all (w : World) (token : string)
    (l : list (nat * FileLocator)) :
  forallb (fun u => negb (succeeded w token u)) l = true ->
  okPaths w token l = [].
Proof.
  unfold okPaths. induction l as [|u l IH]; [reflexivity|].
  simpl. intros H. apply andb_prop in H. destruct H as [Hu Hl].
  destruct (succeeded w token u); [discriminate|]. now apply IH.
Qed.

Lemma okPaths_some (w : World) (token : string)
    (l : list (nat * FileLocator)) :
  existsb (succeeded w token) l = true -> okPaths w token l <> [].
Proof.
  unfold okPaths. induction l as [|u l IH]; [discriminate|].
  simpl. destruct (succeeded w token u); [discriminate|]. exact IH.
Qed.

Lemma failures_In (w : World) (token : string)
    (l : list (nat * FileLocator)) (e : error) :
  In e (failures w token l) ->
  exists u cause, In u l /\ unitResult w token u = Some cause /\
                  e = ProcessingFailed (Path (snd u)) cause.
Proof.
  unfold failures. intros H. apply in_flat_map in H.
  destruct H as (u & Hu & He).
  destruct (unitResult w token u) as [cause|] eqn:Hres; [|contradiction].
  destruct He as [<-|[]]. exists u, cause. now repeat split.
Qed.

Lemma numbered_length (items : list FileLocator) :
  length (numbered items) = length items.
Proof.
  unfold numbered. rewrite length_combine, length_seq. apply Nat.min_id.
Qed.

Lemma running_length (ws : list Worker) :
  length (running ws) = length (filter inProcessFile ws).
Proof.
  unfold running. apply length_map.
Qed.



Lemma completed_inv (s : PoolState) :
  completed s = true -> toSubmit s = [] /\ workers s = [].
Proof.
  unfold completed. destruct (toSubmit s); [|discriminate].
  destruct (workers s); [now split|discriminate].
Qed.

(** C1: for a non-empty list of locators, once every unit is done: if every
    unit failed, [processFilesInParallel] returns an error and no summary,
    and the error carries the error of one of the units, tagged with its
    path; otherwise it returns a summary whose SourceFiles are exactly the
    paths of the units that succeeded (in the order in which they finished)
    and whose ProcessedFiles is the length of that list. *)
Theorem aggregate_outcome (w : World) (items : list FileLocator)
    (token repoName : string) (schedule : list Move)
    (r : run ScanResult) (evs : list Event) :
  items <> [] ->
  0 <= CONCURRENCY w ->
  processFilesInParallel w items token repoName schedule = Some (r, evs) ->
  (forallb (fun u => negb (succeeded w token u)) (numbered items) = true ->
     exists u cause,
       In u (numbered items) /\ unitResult w token u = Some cause /\
       r = Err (AllFilesFailed (ProcessingFailed (Path (snd u)) cause))) /\
  (existsb (succeeded w token) (numbered items) = true ->
     exists res,
       r = Ok res /\
       Permutation (SourceFiles res) (okPaths w token (numbered items)) /\
       ProcessedFiles res = Z.of_nat (length (SourceFiles res)) /\
       SourceRepo res = repoName).
Proof.
  intros Hitems Hcap Hrun. unfold processFilesInParallel in Hrun.
  destruct (Z.ltb_spec (CONCURRENCY w) 0); [lia|].
  destruct (steps w token (CONCURRENCY w) schedule (initial items)) as [s|] eqn:Hsteps;
    [|discriminate].
  destruct (completed s) eqn:Hdone; [|discriminate].
  injection Hrun as <- <-.
  pose proof (steps_invariant w token (CONCURRENCY w) items schedule _ _
                (initial_invariant w token (CONCURRENCY w) items Hcap) Hsteps)
    as (_ & _ & [finished (Hperm & Hok & Herr)] & _).
  apply completed_inv in Hdone. destruct Hdone as [Hsub Hws].
  rewrite Hsub, Hws in Hperm. simpl in Hperm.
  pose proof (outcomes_length w token finished) as Hlen.
  pose proof (Permutation_length Hperm) as Hsame.
  rewrite numbered_length in Hsame.
  assert (Hpos : (0 < length items)%nat)
    by (destruct items; [contradiction | simpl; lia]).
  unfold summary. rewrite Herr. split.
  - intros Hall.
    assert (Hnone : okPaths w token finished = []).
    { apply failures_all. apply forallb_forall. intros u Hu.
      rewrite forallb_forall in Hall. apply Hall.
      eapply Permutation_in; [symmetry; exact Hperm | exact Hu]. }
    rewrite Hnone in Hlen. simpl in Hlen.
    replace (length (failures w token finished) =? length items)%nat with true
      by (symmetry; apply Nat.eqb_eq; lia).
    destruct (failures w token finished) as [|e rest] eqn:Hfail;
      [simpl in Hlen; lia|].
    assert (He : In e (failures w token finished)) by (rewrite Hfail; now left).
    apply failures_In in He. destruct He as (u & cause & Hu & Hres & ->).
    exists u, cause. repeat split; [|assumption].
    eapply Permutation_in; [symmetry; exact Hperm | exact Hu].
  - intros Hsome.
    assert (Hne : okPaths w token finished <> []).
    { intros Hnil. apply (okPaths_some w token (numbered items) Hsome).
      apply Permutation_nil. rewrite <- Hnil. symmetry.
      now apply okPaths_Permutation. }
    assert (Hlt : (0 < length (okPaths w token finished))%nat)
      by (destruct (okPaths w token finished); [contradiction | simpl; lia]).
    replace (length (failures w token finished) =? length items)%nat with false
      by (symmetry; apply Nat.eqb_neq; lia).
    eexists. split; [reflexivity|]. cbn [SourceFiles ProcessedFiles SourceRepo].
    rewrite Hok. repeat split. symmetry. now apply okPaths_Permutation.
Qed.

Lemma aggregate_outcome_witness :
  (exists res evs,
     processFilesInParallel Examples.partialWorld Examples.threeFiles
       "token" "o/r" (oneByOne 3) = Some (Ok res, evs) /\
     ProcessedFiles res = 2) /\
  (exists e evs,
     processFilesInParallel Examples.allBrokenWorld Examples.threeFiles
       "token" "o/r" (oneByOne 3) = Some (Err (AllFilesFailed e), evs)).
Proof.
  assert (Hne : Examples.threeFiles <> []) by discriminate.
  split.
  - assert (Hcap : 0 <= CONCURRENCY Examples.partialWorld)
      by (vm_compute; discriminate).
    assert (Hrun : exists r evs,
               processFilesInParallel Examples.partialWorld Examples.threeFiles
                 "token" "o/r" (oneByOne 3) = Some (r, evs))
      by (vm_compute; eauto).
    destruct Hrun as (r & evs & Hrun).
    destruct (aggregate_outcome _ _ _ _ _ _ _ Hne Hcap Hrun) as [_ Hsome].
    destruct (Hsome eq_refl) as (res & -> & Hperm & Hcount & _).
    exists res, evs. split; [exact Hrun|].
    rewrite Hcount. apply Permutation_length in Hperm. now rewrite Hperm.
  - assert (Hcap : 0 <= CONCURRENCY Examples.allBrokenWorld)
      by (vm_compute; discriminate).
    assert (Hrun : exists r evs,
               processFilesInParallel Examples.allBrokenWorld Examples.threeFiles
                 "token" "o/r" (oneByOne 3) = Some (r, evs))
      by (vm_compute; eauto).
    destruct Hrun as (r & evs & Hrun).
    destruct (aggregate_outcome _ _ _ _ _ _ _ Hne Hcap Hrun) as [Hall _].
    destruct (Hall eq_refl) as (u & cause & _ & _ & ->).
    eauto.
Defined.

(* ================================================================== *)
(** ** The pool runs to its end *)

Lemma steps_app (w : World) (token : string) (capacity : Z)
    (a b : list Move) (s : PoolState) :
  steps w token capacity (a ++ b) s
    = match steps w token capacity a s with
      | Some s' => steps w token capacity b s'
      | None => None
      end.
Proof.
  revert s. induction a as [|m a IH]; intros s; simpl; [reflexivity|].
  destruct (step w token capacity m s); [apply IH | reflexivity].
Qed.

(** One unit from its admission to its [wg.Done()], the pool being idle. *)
Lemma oneUnit (w : World) (token : string) (capacity : Z) (i : nat)
    (item : FileLocator) (rest : list (nat * FileLocator))
    (pf : list string) (eo : list error) (ev : list Event) :
  1 <= capacity ->
  exists pf' eo' ev',
    steps w token capacity [Submit; Finish i; Release i; WgDone i]
      (mkPoolState ((i, item) :: rest) 0 [] pf eo ev)
    = Some (mkPoolState rest 0 [] pf' eo' ev').
Proof.
  intros Hcap. cbn [steps step toSubmit pool workers app].
  destruct (Z.ltb_spec (Z.of_nat 0) capacity); [|simpl in *; lia].
  cbn [steps step toSubmit pool workers processedFiles errorsOccurred events
       advance wIdx wItem wPhase Phase_eqb].
  rewrite Nat.eqb_refl.
  destruct (processFile w i item token) as [[e|] evs];
    cbn [steps step toSubmit pool workers processedFiles errorsOccurred events
         advance retire wIdx wItem wPhase Phase_eqb];
    rewrite ?Nat.eqb_refl;
    cbn [steps step toSubmit pool workers processedFiles errorsOccurred events
         advance retire wIdx wItem wPhase Phase_eqb];
    rewrite ?Nat.eqb_refl; eauto.
Qed.

Lemma oneByOne_runs (w : World) (token : string) (capacity : Z) :
  1 <= capacity ->
  forall (items : list FileLocator) (start : nat)
         (pf : list string) (eo : list error) (ev : list Event),
  exists s,
    steps w token capacity
      (flat_map (fun i => [Submit; Finish i; Release i; WgDone i])
         (seq start (length items)))
      (mkPoolState (combine (seq start (length items)) items) 0 [] pf eo ev)
    = Some s /\ completed s = true.
Proof.
  intros Hcap. induction items as [|item items IH]; intros start pf eo ev.
  - simpl. eexists. split; reflexivity.
  - cbn [length seq flat_map combine]. rewrite steps_app.
    destruct (oneUnit w token capacity start item
                (combine (seq (S start) (length items)) items) pf eo ev Hcap)
      as (pf' & eo' & ev' & ->).
    apply IH.
Qed.

(** With at least one slot, [processFilesInParallel] returns: the schedule
    that takes the units one by one runs it to its end. *)
Lemma processFilesInParallel_returns (w : World) (items : list FileLocator)
    (token repoName : string) :
  1 <= CONCURRENCY w ->
  exists r evs,
    processFilesInParallel w items token repoName (oneByOne (length items))
      = Some (r, evs).
Proof.
  intros Hcap. unfold processFilesInParallel.
  destruct (Z.ltb_spec (CONCURRENCY w) 0); [lia|].
  destruct (oneByOne_runs w token (CONCURRENCY w) Hcap items 0 [] [] [])
    as (s & Hs & Hdone).
  unfold oneByOne, initial, numbered. rewrite Hs, Hdone. eauto.
Qed.

(* ================================================================== *)
(** ** Scan and Filter: proofs *)

Lemma searchLoop_events (w : World) (url token : string) (n : nat) :
  forall attempt response,
  forallb isSearchEvent (snd (searchLoop w url token n attempt response)) = true.
Proof.
  induction n as [|n IH]; intros attempt response; [reflexivity|].
  assert (Hpre : forallb isSearchEvent
                   (backoff attempt ++ [EvSearchAttempt attempt]) = true).
  { unfold backoff. destruct (0 <? attempt); reflexivity. }
  assert (Hnext : forall response',
            forallb isSearchEvent
              (snd (let '(res, evs) :=
                      searchLoop w url token n (attempt + 1) response' in
                    (res, ((backoff attempt ++ [EvSearchAttempt attempt]) ++ evs)%list)))
            = true).
  { intros response'. specialize (IH (attempt + 1) response').
    destruct (searchLoop w url token n (attempt + 1) response') as [res evs].
    cbn [snd] in *. now rewrite forallb_app, Hpre, IH. }
  cbn [searchLoop].
  destruct (searchHttp w url token attempt) as [e|e|status body];
    try apply Hnext.
  destruct (negb (status =? StatusOK)); [apply Hnext|].
  destruct (bodyErr body); [apply Hnext|].
  destruct (unmarshalSearch w response (bodyData body)) as [response' [e|]];
    [apply Hnext | exact Hpre].
Qed.

Lemma searchGitHubFiles_events (w : World) (url token : string) :
  forallb isSearchEvent (snd (searchGitHubFiles w url token)) = true.
Proof.
  unfold searchGitHubFiles.
  pose proof (searchLoop_events w url token (iterations w) 0 (mkSearchResponse 0 []))
    as H.
  destruct (searchLoop w url token (iterations w) 0 (mkSearchResponse 0 []))
    as [[items|] evs]; exact H.
Qed.

Lemma searchEvent_not_unitEvent (evs : list Event) :
  forallb isSearchEvent evs = true ->
  forallb (fun e => negb (isUnitEvent e)) evs = true.
Proof.
  intros H. apply forallb_forall. intros e He.
  rewrite forallb_forall in H. apply H in He. now destruct e.
Qed.

Lemma searchEvent_stamped (w : World) (items : list FileLocator)
    (evs : list Event) :
  forallb isSearchEvent evs = true -> Forall (stamped w items) evs.
Proof.
  intros H. apply Forall_forall. intros e He.
  rewrite forallb_forall in H. apply H in He. now destruct e.
Qed.

(** C6: when the search succeeds and returns no locator, [Scan] returns a
    summary with zero processed files and an empty list of source files, and
    no error; the worker pool is not entered (the result is the same under
    every schedule), and nothing is fetched, decoded or written. *)
Theorem Scan_without_candidates (w : World) (repoName : string)
    (filenames : list string) (schedule : list Move) (url : string) :
  ensureDatabase w = None ->
  Token w <> "" ->
  buildGitHubSearchURL w repoName filenames = Ok url ->
  fst (searchGitHubFiles w url (Token w)) = Ok [] ->
  exists evs,
    Scan w repoName filenames schedule
      = Some (Ok (mkScanResult 0 (nowAtSummary w) repoName []), evs) /\
    forallb (fun e => negb (isUnitEvent e)) evs = true.
Proof.
  intros Hdb Htoken Hurl Hsearch.
  exists (snd (searchGitHubFiles w url (Token w))). split.
  - unfold Scan. rewrite Hdb. apply String.eqb_neq in Htoken.
    rewrite Htoken, Hurl.
    destruct (searchGitHubFiles w url (Token w)) as [res evs].
    cbn [fst] in Hsearch. subst res. reflexivity.
  - apply searchEvent_not_unitEvent, searchGitHubFiles_events.
Qed.

Lemma Scan_without_candidates_witness :
  exists evs,
    Scan Examples.emptyWorld "o/r" [] (oneByOne 3)
      = Some (Ok (mkScanResult 0 100 "o/r" []), evs) /\
    forallb (fun e => negb (isUnitEvent e)) evs = true.
Proof.
  refine (Scan_without_candidates Examples.emptyWorld "o/r" [] (oneByOne 3)
            "https://api.github.com/search/code?q=repo:o/r+extension:json"
            _ _ _ _).
  - reflexivity.
  - discriminate.
  - reflexivity.
  - reflexivity.
Defined.

(** C3, as amended: the records of a file that are handed to the storage
    layer all carry the path of that file as their source file, and one
    timestamp, read once for that file after its payload is decoded; the
    records of another file carry the reading made for that file. *)
Theorem records_stamped_per_file (w : World) (repoName : string)
    (filenames : list string) (schedule : list Move)
    (r : run ScanResult) (evs : list Event) :
  Scan w repoName filenames schedule = Some (r, evs) ->
  Forall (stamped w (candidates w repoName filenames)) evs.
Proof.
  unfold Scan, candidates. intros Hscan.
  destruct (ensureDatabase w); [injection Hscan as <- <-; constructor|].
  destruct (Token w =? "")%string; [injection Hscan as <- <-; constructor|].
  destruct (buildGitHubSearchURL w repoName filenames) as [url|e|msg|msg];
    try (injection Hscan as <- <-; constructor).
  pose proof (searchGitHubFiles_events w url (Token w)) as Hsearch.
  destruct (searchGitHubFiles w url (Token w)) as [[items|e|msg|msg] sevs];
    cbn [fst snd] in *;
    try (injection Hscan as <- <-; now apply searchEvent_stamped).
  destruct (length items =? 0)%nat;
    [injection Hscan as <- <-; now apply searchEvent_stamped|].
  unfold processFilesInParallel in Hscan.
  destruct (Z.ltb_spec (CONCURRENCY w) 0).
  - injection Hscan as <- <-. rewrite app_nil_r. now apply searchEvent_stamped.
  - destruct (steps w (Token w) (CONCURRENCY w) schedule (initial items))
      as [s|] eqn:Hsteps; [|discriminate].
    destruct (completed s); [|discriminate].
    injection Hscan as <- <-. apply Forall_app. split.
    + now apply searchEvent_stamped.
    + eapply steps_invariant; [|exact Hsteps].
      now apply initial_invariant.
Qed.

Lemma records_stamped_per_file_witness :
  exists r evs,
    Scan Examples.twoFilesWorld "o/r" [] (oneByOne 2) = Some (r, evs) /\
    Forall (stamped Examples.twoFilesWorld [Examples.fileA; Examples.fileB]) evs.
Proof.
  assert (Hrun : exists r evs,
             Scan Examples.twoFilesWorld "o/r" [] (oneByOne 2) = Some (r, evs))
    by (vm_compute; eauto).
  destruct Hrun as (r & evs & Hrun). exists r, evs. split; [exact Hrun|].
  exact (records_stamped_per_file Examples.twoFilesWorld "o/r" []
           (oneByOne 2) r evs Hrun).
Defined.

(** C3, as stated, fails: in a scan of two files the records of the first
    carry the reading 5 of the clock and those of the second the reading 7. *)
Lemma scan_timestamp_not_shared :
  exists r evs,
    Scan Examples.twoFilesWorld "o/r" [] (oneByOne 2) = Some (r, evs) /\
    ~ sharedTimestamp evs.
Proof.
  eexists. eexists. split; [vm_compute; reflexivity|].
  intros [t H]. vm_compute in H.
  inversion H as [|v1 l1 H1 H']; subst.
  inversion H' as [|v2 l2 H2 _]; subst.
  simpl in H2. discriminate.
Qed.

(** C4, on the code: when every attempt at the download fails, in a
    transport error or in a status other than 200, [processFile] goes on to
    decode the empty [data] and returns the parse error of the decoder, the
    same in both cases; the error of line 329 is never returned. *)
Theorem exhausted_download_reaches_parse :
  processFile Examples.offlineWorld 0 Examples.fileA "token"
    = (Some (ParseFailed (ExternalError "unexpected end of JSON input") ""),
       [EvFetchAttempt 0 0; EvSleep 1; EvFetchAttempt 0 1; EvSleep 2;
        EvFetchAttempt 0 2; EvUnmarshal 0 ""]) /\
  processFile Examples.forbiddenWorld 0 Examples.fileA "token"
    = (Some (ParseFailed (ExternalError "unexpected end of JSON input") ""),
       [EvFetchAttempt 0 0; EvSleep 1; EvFetchAttempt 0 1; EvSleep 2;
        EvFetchAttempt 0 2; EvUnmarshal 0 ""]).
Proof.
  split; reflexivity.
Qed.

(** When the storage layer fails to read, [Filter] returns an empty list and
    a nil error. *)
Lemma Filter_read_error (w : World) (severity : string)
    (vulnerabilities : list Vulnerabality) (e : error) :
  ensureDatabase w = None ->
  GetVulnerabilities w severity = (vulnerabilities, Some e) ->
  Filter w severity = Ok [].
Proof.
  intros Hdb Hget. unfold Filter. now rewrite Hdb, Hget.
Qed.

(** When the storage layer answers, [Filter] returns its answer. *)
Lemma Filter_read (w : World) (severity : string)
    (vulnerabilities : list Vulnerabality) :
  ensureDatabase w = None ->
  GetVulnerabilities w severity = (vulnerabilities, None) ->
  Filter w severity = Ok vulnerabilities.
Proof.
  intros Hdb Hget. unfold Filter. now rewrite Hdb, Hget.
Qed.

(** C7, on the code: with a storage layer whose read fails, [Filter] returns
    the empty list with a nil error, not an error. *)
Theorem Filter_hides_read_error :
  GetVulnerabilities Examples.brokenStoreWorld "HIGH"
    = ([], Some (ExternalError "failed to query vulnerabilities")) /\
  Filter Examples.brokenStoreWorld "HIGH" = Ok [].
Proof.
  split; reflexivity.
Qed.

Lemma filler_length (n : nat) : String.length (Examples.filler n) = n.
Proof.
  induction n as [|n IH]; simpl; [reflexivity | now rewrite IH].
Qed.

Lemma junk_parse_error (n : nat) :
  fst (processFile (Examples.servingWorld (Examples.junk n)) 0 Examples.fileA "token")
    = Some (ParseFailed (ExternalError "invalid character in JSON input")
              (Examples.junk n)).
Proof.
  reflexivity.
Qed.

(** C8, as stated, fails: no bound holds of the payload a parse error shows;
    a file of [limit + 2] characters that is not JSON is shown whole. *)
Lemma parse_error_payload_not_truncated :
  ~ exists limit : nat, forall data : string,
      truncatedView limit
        (fst (processFile (Examples.servingWorld data) 0 Examples.fileA "token")).
Proof.
  intros [limit H]. specialize (H (Examples.junk (S limit))).
  rewrite junk_parse_error in H. simpl in H. rewrite filler_length in H. lia.
Qed.

(** C8, as amended: when the download of a file succeeds (at attempt [m],
    after [m] failed attempts) and its content is not decoded, the decode is
    made once and is the last thing the unit does (no further download, no
    second decode), and the error recorded for the unit is the parse error,
    with the cause and the whole payload, tagged with the path of the file. *)
Theorem decode_failure_recorded (w : World) (i : nat) (item : FileLocator)
    (token payload : string) (cause : error) (fileContent : list ScanPayloads)
    (m : nat) :
  (m < iterations w)%nat ->
  (forall a, 0 <= a < Z.of_nat m ->
             failedExchange (fileHttp w i item token a) = true) ->
  fileHttp w i item token (Z.of_nat m) = Response StatusOK (mkBody payload None) ->
  unmarshalPayload w payload = (fileContent, Some cause) ->
  processFile w i item token
    = (Some (ParseFailed cause payload),
       (attemptsFrom (EvFetchAttempt i) (S m) 0 ++ [EvUnmarshal i payload])%list) /\
  length (filter (isUnmarshal i) (snd (processFile w i item token))) = 1%nat /\
  (forall capacity s ws,
     advance i InProcessFile Recorded (workers s) = Some (item, ws) ->
     exists s',
       step w token capacity (Finish i) s = Some s' /\
       errorsOccurred s'
         = (errorsOccurred s
              ++ [ProcessingFailed (Path item) (ParseFailed cause payload)])%list /\
       processedFiles s' = processedFiles s).
Proof.
  intros Hm Hfail Hok Hdecode.
  assert (Hloop : downloadLoop w i item token (iterations w) 0 ""
                  = (payload, attemptsFrom (EvFetchAttempt i) (S m) 0)).
  { apply downloadLoop_succeeds; [exact Hm | | exact Hok].
    intros a Ha. apply Hfail. lia. }
  assert (Hrun : processFile w i item token
                 = (Some (ParseFailed cause payload),
                    (attemptsFrom (EvFetchAttempt i) (S m) 0
                       ++ [EvUnmarshal i payload])%list)).
  { unfold processFile. now rewrite Hloop, Hdecode. }
  split; [exact Hrun|]. split.
  - rewrite Hrun. cbn [snd]. rewrite filter_app.
    rewrite filter_none.
    + simpl. now rewrite Nat.eqb_refl.
    + intros e He.
      pose proof (downloadLoop_events w i item token (iterations w) 0 "") as Hev.
      rewrite Hloop in Hev. cbn [snd] in Hev.
      rewrite forallb_forall in Hev. apply Hev in He. now destruct e.
  - intros capacity s ws Hadv. cbn [step]. rewrite Hadv, Hrun.
    eexists. split; [reflexivity|]. now split.
Qed.

Lemma decode_failure_recorded_witness :
  processFile Examples.partialWorld 1 Examples.fileB "token"
    = (Some (ParseFailed (ExternalError "invalid character in JSON input")
               Examples.brokenText),
       [EvFetchAttempt 1 0; EvUnmarshal 1 Examples.brokenText]).
Proof.
  refine (proj1 (decode_failure_recorded Examples.partialWorld 1 Examples.fileB
                   "token" Examples.brokenText
                   (ExternalError "invalid character in JSON input") [] 0
                   _ _ _ _)).
  - vm_compute. lia.
  - intros a Ha. lia.
  - reflexivity.
  - reflexivity.
Defined.

(* ================================================================== *)
(** ** The search and the download beyond the failing case *)

Lemma searchLoop_succeeds (w : World) (url token data : string) (total : Z)
    (items : list FileLocator) (m : nat) :
  (forall response,
     unmarshalSearch w response data = (mkSearchResponse total items, None)) ->
  forall (n : nat) (attempt : Z) (response : SearchResponse),
  (m < n)%nat ->
  (forall a, attempt <= a < attempt + Z.of_nat m ->
             searchAttemptFails w url token a) ->
  searchHttp w url token (attempt + Z.of_nat m)
    = Response StatusOK (mkBody data None) ->
  searchLoop w url token n attempt response
    = (Some items, attemptsFrom EvSearchAttempt (S m) attempt).
Proof.
  intros Hdecode. induction m as [|m IH]; intros n attempt response Hlt Hfail Hok.
  - destruct n as [|n]; [lia|].
    replace (attempt + Z.of_nat 0) with attempt in Hok by lia.
    cbn [searchLoop attemptsFrom]. rewrite Hok. cbn [negb bodyErr bodyData].
    change (StatusOK =? StatusOK) with true. cbn [negb].
    rewrite Hdecode. unfold backoff. reflexivity.
  - destruct n as [|n]; [lia|].
    assert (Hnext : forall response',
              searchLoop w url token n (attempt + 1) response'
                = (Some items, attemptsFrom EvSearchAttempt (S m) (attempt + 1))).
    { intros response'. apply IH; [lia| |].
      - intros a Ha. apply Hfail. lia.
      - rewrite <- Hok. f_equal. lia. }
    assert (Hnow : searchAttemptFails w url token attempt) by (apply Hfail; lia).
    unfold searchAttemptFails in Hnow.
    cbn [searchLoop]. unfold backoff.
    change (attemptsFrom EvSearchAttempt (S (S m)) attempt)
      with ((if 0 <? attempt then [EvSleep attempt] else [])
              ++ EvSearchAttempt attempt
              :: attemptsFrom EvSearchAttempt (S m) (attempt + 1))%list.
    destruct (searchHttp w url token attempt) as [e|e|status body].
    + rewrite Hnext. now rewrite <- app_assoc.
    + rewrite Hnext. now rewrite <- app_assoc.
    + destruct (negb (status =? StatusOK)) eqn:Hstatus.
      * rewrite Hnext. now rewrite <- app_assoc.
      * destruct (bodyErr body) as [e|] eqn:Hbody.
        -- rewrite Hnext. now rewrite <- app_assoc.
        -- destruct Hnow as [Hnow|Hnow].
           { simpl in Hnow. rewrite Hstatus, Hbody in Hnow. discriminate. }
           specialize (Hnow response).
           destruct (unmarshalSearch w response (bodyData body))
             as [response' [e|]].
           ++ rewrite Hnext. now rewrite <- app_assoc.
           ++ now elim Hnow.
Qed.

(** X1: the search returns at its first successful attempt: when the
    attempts before attempt [m] fail and attempt [m], within the budget,
    delivers a body that decodes, the items of that body are returned with a
    nil error, after exactly [m + 1] attempts and the waits 1, ..., m; no
    attempt is made after it. *)
Theorem search_returns_at_first_success (w : World) (url token data : string)
    (total : Z) (items : list FileLocator) (m : nat) :
  (m < iterations w)%nat ->
  (forall a, 0 <= a < Z.of_nat m -> searchAttemptFails w url token a) ->
  searchHttp w url token (Z.of_nat m) = Response StatusOK (mkBody data None) ->
  (forall response,
     unmarshalSearch w response data = (mkSearchResponse total items, None)) ->
  searchGitHubFiles w url token
    = (Ok items, attemptsFrom EvSearchAttempt (S m) 0) /\
  length (filter isSearchAttempt (snd (searchGitHubFiles w url token))) = S m.
Proof.
  intros Hm Hfail Hok Hdecode.
  assert (Hrun : searchGitHubFiles w url token
                 = (Ok items, attemptsFrom EvSearchAttempt (S m) 0)).
  { unfold searchGitHubFiles.
    rewrite (searchLoop_succeeds w url token data total items m Hdecode
               (iterations w) 0 (mkSearchResponse 0 []) Hm); [reflexivity| |].
    - intros a Ha. apply Hfail. lia.
    - exact Hok. }
  split; [exact Hrun|]. rewrite Hrun. cbn [snd].
  apply count_attemptsFrom; reflexivity.
Qed.

Lemma search_returns_at_first_success_witness :
  searchGitHubFiles Examples.flakyWorld "url" "token"
    = (Ok [Examples.fileA], [EvSearchAttempt 0; EvSleep 1; EvSearchAttempt 1]).
Proof.
  refine (proj1 (search_returns_at_first_success Examples.flakyWorld "url" "token"
                   Examples.oneMatch 1 [Examples.fileA] 1 _ _ _ _)).
  - vm_compute. lia.
  - intros a Ha. assert (a = 0) as -> by lia. exact I.
  - reflexivity.
  - intros response. reflexivity.
Defined.

(** X2: with a negative MAX_RETRIES no request is ever sent: the search
    fails at once, and every file is decoded from the empty data without a
    single download attempt. *)
Theorem negative_retries_send_nothing (w : World) :
  MAX_RETRIES w < 0 ->
  (forall url token,
     searchGitHubFiles w url token
       = (Err (SearchFailed (MAX_RETRIES w + 1) None), [])) /\
  (forall i item token,
     exists rest,
       snd (processFile w i item token) = EvUnmarshal i "" :: rest /\
       forallb afterDownload rest = true).
Proof.
  intros Hneg.
  assert (Hzero : iterations w = 0%nat) by (unfold iterations; lia).
  split.
  - intros url token. unfold searchGitHubFiles. rewrite Hzero. reflexivity.
  - intros i item token.
    destruct (processFile_events w i item token) as (rest & Hev & Hrest).
    rewrite Hzero in Hev. cbn [downloadLoop fst snd app] in Hev.
    exists rest. split; [exact Hev|].
    destruct Hrest as [->|[rs ->]]; reflexivity.
Qed.

Lemma negative_retries_send_nothing_witness :
  searchGitHubFiles MoreExamples.noAttemptWorld "url" "token"
    = (Err (SearchFailed 0 None), []) /\
  exists rest,
    snd (processFile MoreExamples.noAttemptWorld 0 Examples.fileA "token")
      = EvUnmarshal 0 "" :: rest.
Proof.
  assert (Hneg : MAX_RETRIES MoreExamples.noAttemptWorld < 0) by reflexivity.
  destruct (negative_retries_send_nothing MoreExamples.noAttemptWorld Hneg)
    as [Hsearch Hfile].
  split; [apply Hsearch|].
  destruct (Hfile 0%nat Examples.fileA "token") as (rest & Hev & _).
  exists rest. exact Hev.
Defined.

(** X3: a file whose payload holds no record (no block, or only blocks
    without records) is a success, and the storage layer is not called for
    it. *)
Theorem processFile_without_records (w : World) (i : nat) (item : FileLocator)
    (token payload : string) (fileContent : list ScanPayloads) (m : nat) :
  (m < iterations w)%nat ->
  (forall a, 0 <= a < Z.of_nat m ->
             failedExchange (fileHttp w i item token a) = true) ->
  fileHttp w i item token (Z.of_nat m) = Response StatusOK (mkBody payload None) ->
  unmarshalPayload w payload = (fileContent, None) ->
  flat_map Vulnerabilities fileContent = [] ->
  processFile w i item token
    = (None, (attemptsFrom (EvFetchAttempt i) (S m) 0
                ++ [EvUnmarshal i payload])%list).
Proof.
  intros Hm Hfail Hok Hdecode Hnone.
  unfold processFile.
  rewrite (downloadLoop_succeeds w i item token payload m (iterations w) 0 "" Hm);
    [| intros a Ha; apply Hfail; lia | exact Hok].
  rewrite Hdecode, collect_spec, Hnone. reflexivity.
Qed.

Lemma processFile_without_records_witness :
  processFile (Examples.servingWorld "[]") 0 Examples.fileA "token"
    = (None, [EvFetchAttempt 0 0; EvUnmarshal 0 "[]"]).
Proof.
  refine (processFile_without_records (Examples.servingWorld "[]") 0
            Examples.fileA "token" "[]" [] 0 _ _ _ _ _).
  - vm_compute. lia.
  - intros a Ha. lia.
  - reflexivity.
  - reflexivity.
  - reflexivity.
Defined.

(** X4: a file with records is written in one call of the storage layer,
    which gets every record of every block, in the order of the file, each
    with the path of the file and the reading of the clock of the unit; the
    unit fails exactly when that call fails, with its error wrapped. *)
Theorem processFile_writes_once (w : World) (i : nat) (item : FileLocator)
    (token payload : string) (fileContent : list ScanPayloads) (m : nat) :
  (m < iterations w)%nat ->
  (forall a, 0 <= a < Z.of_nat m ->
             failedExchange (fileHttp w i item token a) = true) ->
  fileHttp w i item token (Z.of_nat m) = Response StatusOK (mkBody payload None) ->
  unmarshalPayload w payload = (fileContent, None) ->
  flat_map Vulnerabilities fileContent <> [] ->
  let records :=
    map (stamp (Path item) (nowInUnit w i)) (flat_map Vulnerabilities fileContent) in
  processFile w i item token
    = (option_map SaveFailed (SaveVulnerabilities w i records),
       (attemptsFrom (EvFetchAttempt i) (S m) 0
          ++ [EvUnmarshal i payload; EvSave i records])%list).
Proof.
  intros Hm Hfail Hok Hdecode Hsome records.
  unfold processFile.
  rewrite (downloadLoop_succeeds w i item token payload m (iterations w) 0 "" Hm);
    [| intros a Ha; apply Hfail; lia | exact Hok].
  rewrite Hdecode, collect_spec. fold records.
  assert (Hlen : (0 <? length records)%nat = true).
  { unfold records. rewrite length_map.
    destruct (flat_map Vulnerabilities fileContent); [contradiction|reflexivity]. }
  rewrite Hlen.
  destruct (SaveVulnerabilities w i records); cbn [option_map];
    rewrite <- app_assoc; reflexivity.
Qed.

Lemma processFile_writes_once_witness :
  processFile Examples.twoFilesWorld 1 Examples.fileB "token"
    = (None,
       [EvFetchAttempt 1 0; EvUnmarshal 1 Examples.textB;
        EvSave 1 [stamp "scans/b.json" 7
                    (Examples.decodedRecord "CVE-2024-5678" "MEDIUM")]]).
Proof.
  refine (processFile_writes_once Examples.twoFilesWorld 1 Examples.fileB "token"
            Examples.textB
            [mkScanPayloads [Examples.decodedRecord "CVE-2024-5678" "MEDIUM"]]
            0 _ _ _ _ _).
  - vm_compute. lia.
  - intros a Ha. lia.
  - reflexivity.
  - reflexivity.
  - discriminate.
Defined.

Lemma downloadLoop_keeps_partial (w : World) (i : nat) (item : FileLocator)
    (token partial : string) (e : error) (m : nat) :
  forall (n : nat) (attempt : Z) (data : string),
  (m < n)%nat ->
  (forall a, attempt <= a < attempt + Z.of_nat m ->
             failedExchange (fileHttp w i item token a) = true) ->
  fileHttp w i item token (attempt + Z.of_nat m)
    = Response StatusOK (mkBody partial (Some e)) ->
  (forall a, attempt + Z.of_nat m < a < attempt + Z.of_nat n ->
             failedWithoutBody (fileHttp w i item token a) = true) ->
  fst (downloadLoop w i item token n attempt data) = partial.
Proof.
  induction m as [|m IH]; intros n attempt data Hlt Hfail Hbroken Hlater.
  - destruct n as [|n]; [lia|].
    replace (attempt + Z.of_nat 0) with attempt in Hbroken by lia.
    cbn [downloadLoop]. rewrite Hbroken. cbn [negb bodyErr bodyData].
    change (StatusOK =? StatusOK) with true. cbn [negb].
    pose proof (downloadLoop_keeps_data w i item token n (attempt + 1) partial)
      as Hkeep.
    destruct (downloadLoop w i item token n (attempt + 1) partial) as [d evs].
    cbn [fst] in *. apply Hkeep. intros a Ha. apply Hlater. lia.
  - destruct n as [|n]; [lia|].
    assert (Hnext : forall data',
              fst (downloadLoop w i item token n (attempt + 1) data') = partial).
    { intros data'. apply IH; [lia| | |].
      - intros a Ha. apply Hfail. lia.
      - rewrite <- Hbroken. f_equal. lia.
      - intros a Ha. apply Hlater. lia. }
    assert (Hnow : failedExchange (fileHttp w i item token attempt) = true)
      by (apply Hfail; lia).
    cbn [downloadLoop].
    destruct (fileHttp w i item token attempt) as [e0|e0|status body].
    + specialize (Hnext data).
      now destruct (downloadLoop w i item token n (attempt + 1) data).
    + specialize (Hnext data).
      now destruct (downloadLoop w i item token n (attempt + 1) data).
    + destruct (negb (status =? StatusOK)) eqn:Hstatus.
      * specialize (Hnext data).
        now destruct (downloadLoop w i item token n (attempt + 1) data).
      * destruct (bodyErr body) as [e0|] eqn:Hbody.
        -- specialize (Hnext (bodyData body)).
           now destruct (downloadLoop w i item token n (attempt + 1) (bodyData body)).
        -- simpl in Hnow. rewrite Hstatus, Hbody in Hnow. discriminate.
Qed.

(** X5: when the body of an answer with status 200 breaks off while it is
    read and no later attempt gets a body, the bytes read before the break
    are what the unit decodes; if they decode to a payload without records,
    the file counts as processed, although no download succeeded. *)
Theorem broken_off_body_is_decoded (w : World) (i : nat) (item : FileLocator)
    (token partial : string) (e : error) (m : nat) :
  (m < iterations w)%nat ->
  (forall a, 0 <= a < Z.of_nat m ->
             failedExchange (fileHttp w i item token a) = true) ->
  fileHttp w i item token (Z.of_nat m)
    = Response StatusOK (mkBody partial (Some e)) ->
  (forall a, Z.of_nat m < a < Z.of_nat (iterations w) ->
             failedWithoutBody (fileHttp w i item token a) = true) ->
  In (EvUnmarshal i partial) (snd (processFile w i item token)) /\
  length (filter (isFetchAttempt i) (snd (processFile w i item token)))
    = iterations w /\
  (forall fileContent,
     unmarshalPayload w partial = (fileContent, None) ->
     flat_map Vulnerabilities fileContent = [] ->
     fst (processFile w i item token) = None).
Proof.
  intros Hm Hbefore Hbroken Hlater.
  assert (Hdata : fst (downloadLoop w i item token (iterations w) 0 "") = partial).
  { apply (downloadLoop_keeps_partial w i item token partial e m); assumption. }
  assert (Hall : snd (downloadLoop w i item token (iterations w) 0 "")
                 = attemptsFrom (EvFetchAttempt i) (iterations w) 0).
  { apply downloadLoop_all_fail. intros a Ha.
    destruct (Z.lt_trichotomy a (Z.of_nat m)) as [Hlt|[Heq|Hgt]].
    - apply Hbefore. lia.
    - subst a. rewrite Hbroken. reflexivity.
    - apply failedWithoutBody_failedExchange, Hlater. lia. }
  destruct (processFile_events w i item token) as (rest & Hev & Hrest).
  rewrite Hdata, Hall in Hev. split; [|split].
  - rewrite Hev. apply in_or_app. right. now left.
  - rewrite Hev, filter_app, length_app.
    rewrite count_attemptsFrom; [| intros a; simpl; apply Nat.eqb_refl | reflexivity].
    destruct Hrest as [->|[rs ->]]; simpl; lia.
  - intros fileContent Hdecode Hnone. unfold processFile.
    destruct (downloadLoop w i item token (iterations w) 0 "") as [data evs].
    cbn [fst] in Hdata. subst data.
    now rewrite Hdecode, collect_spec, Hnone.
Qed.

Lemma broken_off_body_is_decoded_witness :
  processFile MoreExamples.brokenOffWorld 0 Examples.fileA "token"
    = (None,
       [EvFetchAttempt 0 0; EvSleep 1; EvFetchAttempt 0 1; EvSleep 2;
        EvFetchAttempt 0 2; EvUnmarshal 0 "[]"]) /\
  fst (processFile MoreExamples.brokenOffWorld 0 Examples.fileA "token") = None.
Proof.
  split; [reflexivity|].
  refine (proj2 (proj2 (broken_off_body_is_decoded MoreExamples.brokenOffWorld 0
                          Examples.fileA "token" "[]"
                          (ExternalError "unexpected EOF") 0 _ _ _ _))
            [] _ _).
  - vm_compute. lia.
  - intros a Ha. lia.
  - reflexivity.
  - intros a Ha. change (Z.of_nat (iterations MoreExamples.brokenOffWorld)) with 3 in Ha.
    assert (a = 1 \/ a = 2) as [-> | ->] by lia; reflexivity.
  - reflexivity.
  - reflexivity.
Defined.

(* ================================================================== *)
(** ** Scan beyond the empty search *)

(** X6: [Scan] fails before any request when the database cannot be opened
    or, the database being there, when the token is missing, also for an
    empty repository name; with both in place an empty repository name ends
    the process in [log.Fatal]; and an error of the search is returned as it
    is, with the events of the search only. *)
Theorem Scan_fails_fast (w : World) (repoName : string) (filenames : list string)
    (schedule : list Move) :
  (forall e, ensureDatabase w = Some e ->
             Scan w repoName filenames schedule = Some (Err e, [])) /\
  (ensureDatabase w = None -> Token w = "" ->
   Scan w repoName filenames schedule = Some (Err TokenMissing, [])) /\
  (ensureDatabase w = None -> Token w <> "" -> repoName = "" ->
   exists msg, Scan w repoName filenames schedule = Some (Fatal msg, [])) /\
  (forall url e,
     ensureDatabase w = None -> Token w <> "" ->
     buildGitHubSearchURL w repoName filenames = Ok url ->
     fst (searchGitHubFiles w url (Token w)) = Err e ->
     Scan w repoName filenames schedule
       = Some (Err e, snd (searchGitHubFiles w url (Token w))) /\
     forallb (fun ev => negb (isUnitEvent ev))
       (snd (searchGitHubFiles w url (Token w))) = true).
Proof.
  split; [|split; [|split]].
  - intros e Hdb. unfold Scan. now rewrite Hdb.
  - intros Hdb Htoken. unfold Scan. now rewrite Hdb, Htoken.
  - intros Hdb Htoken ->. unfold Scan. rewrite Hdb.
    apply String.eqb_neq in Htoken. rewrite Htoken. cbn. eauto.
  - intros url e Hdb Htoken Hurl Hsearch. split.
    + unfold Scan. rewrite Hdb. apply String.eqb_neq in Htoken.
      rewrite Htoken, Hurl.
      destruct (searchGitHubFiles w url (Token w)) as [res evs].
      cbn [fst snd] in *. now subst res.
    + apply searchEvent_not_unitEvent, searchGitHubFiles_events.
Qed.

Lemma Scan_fails_fast_witness :
  Scan MoreExamples.noDatabaseWorld "" [] []
    = Some (Err (ConnectFailed (ExternalError "connection refused")), []) /\
  Scan MoreExamples.noTokenWorld "" [] [] = Some (Err TokenMissing, []) /\
  (exists msg, Scan Examples.emptyWorld "" [] [] = Some (Fatal msg, [])) /\
  Scan Examples.offlineWorld "o/r" [] []
    = Some (Err (SearchFailed 3 None),
            [EvSearchAttempt 0; EvSleep 1; EvSearchAttempt 1; EvSleep 2;
             EvSearchAttempt 2]).
Proof.
  split; [|split; [|split]].
  - refine (proj1 (Scan_fails_fast MoreExamples.noDatabaseWorld "" [] []) _ _).
    reflexivity.
  - refine (proj1 (proj2 (Scan_fails_fast MoreExamples.noTokenWorld "" [] [])) _ _);
      reflexivity.
  - refine (proj1 (proj2 (proj2 (Scan_fails_fast Examples.emptyWorld "" [] [])))
              _ _ _); [reflexivity | discriminate | reflexivity].
  - refine (proj1 (proj2 (proj2 (proj2
              (Scan_fails_fast Examples.offlineWorld "o/r" [] [])))
              "https://api.github.com/search/code?q=repo:o/r+extension:json"
              (SearchFailed 3 None) _ _ _ _)).
    + reflexivity.
    + discriminate.
    + reflexivity.
    + reflexivity.
Defined.

Lemma searchEvent_no_unitEvent (evs : list Event) :
  forallb isSearchEvent evs = true -> existsb isUnitEvent evs = false.
Proof.
  induction evs as [|e evs IH]; [reflexivity|].
  simpl. intros H. apply andb_prop in H. destruct H as [He Hevs].
  rewrite (IH Hevs). now destruct e.
Qed.

(** X7: [Scan] downloads, decodes or stores something only when the
    database is there, the token is set, the repository name is not empty
    and the search has returned at least one locator. *)
Theorem Scan_touches_files_only_for_candidates (w : World) (repoName : string)
    (filenames : list string) (schedule : list Move)
    (r : run ScanResult) (evs : list Event) :
  Scan w repoName filenames schedule = Some (r, evs) ->
  existsb isUnitEvent evs = true ->
  ensureDatabase w = None /\ Token w <> "" /\ repoName <> "" /\
  candidates w repoName filenames <> [].
Proof.
  unfold Scan, candidates. intros Hscan Hunit.
  destruct (ensureDatabase w);
    [injection Hscan as <- <-; discriminate|].
  destruct (String.eqb_spec (Token w) "") as [Htoken|Htoken];
    [injection Hscan as <- <-; discriminate|].
  assert (Hrepo : repoName <> "").
  { intros ->. cbn in Hscan. injection Hscan as <- <-. discriminate. }
  destruct (buildGitHubSearchURL w repoName filenames) as [url|e|msg|msg];
    try (injection Hscan as <- <-; discriminate).
  pose proof (searchEvent_no_unitEvent _ (searchGitHubFiles_events w url (Token w)))
    as Hsearch.
  destruct (searchGitHubFiles w url (Token w)) as [[items|e|msg|msg] sevs];
    cbn [fst snd] in *;
    try (injection Hscan as <- <-; rewrite Hsearch in Hunit; discriminate).
  destruct items as [|item items];
    [injection Hscan as <- <-; rewrite Hsearch in Hunit; discriminate|].
  repeat split; try assumption. discriminate.
Qed.

Lemma Scan_touches_files_only_for_candidates_witness :
  candidates Examples.twoFilesWorld "o/r" [] <> [].
Proof.
  assert (Hrun : exists r evs,
             Scan Examples.twoFilesWorld "o/r" [] (oneByOne 2) = Some (r, evs) /\
             existsb isUnitEvent evs = true)
    by (vm_compute; eauto).
  destruct Hrun as (r & evs & Hrun & Hunit).
  exact (proj2 (proj2 (proj2
           (Scan_touches_files_only_for_candidates Examples.twoFilesWorld "o/r" []
              (oneByOne 2) r evs Hrun Hunit)))).
Defined.

(* ================================================================== *)
(** ** The worker pool: what a run leaves *)

(** The state in which [wg.Wait()] returns: every unit has finished, and
    the two lists hold the outcomes in the order in which they finished. *)
Lemma pool_run (w : World) (token : string) (items : list FileLocator)
    (schedule : list Move) (s : PoolState) :
  0 <= CONCURRENCY w ->
  steps w token (CONCURRENCY w) schedule (initial items) = Some s ->
  completed s = true ->
  exists finished,
    Permutation (numbered items) finished /\
    processedFiles s = okPaths w token finished /\
    errorsOccurred s = failures w token finished.
Proof.
  intros Hcap Hsteps Hdone.
  pose proof (steps_invariant w token (CONCURRENCY w) items schedule _ _
                (initial_invariant w token (CONCURRENCY w) items Hcap) Hsteps)
    as (_ & _ & [finished (Hperm & Hok & Herr)] & _).
  apply completed_inv in Hdone. destruct Hdone as [Hsub Hws].
  rewrite Hsub, Hws in Hperm. simpl in Hperm.
  exists finished. now repeat split.
Qed.


Lemma okPaths_incl (w : World) (token : string) (items : list FileLocator)
    (finished : list (nat * FileLocator)) :
  Permutation (numbered items) finished ->
  incl (okPaths w token finished) (map Path items).
Proof.
  intros Hperm p Hp. unfold okPaths in Hp. apply in_map_iff in Hp.
  destruct Hp as (u & <- & Hu). apply filter_In in Hu. destruct Hu as [Hu _].
  apply (Permutation_in _ (Permutation_sym Hperm)) in Hu.
  apply numbered_nth in Hu. destruct Hu as [_ Hnth].
  apply in_map. eapply nth_error_In. exact Hnth.
Qed.

(** X8: a summary of [Scan] counts no file exactly when the search found
    no locator; when it found some, the summary counts at least one file
    and at most as many as were found, its count is the number of paths it
    lists, the paths are paths of locators found, and the repository is the
    one asked for. *)
Theorem Scan_summary_counts (w : World) (repoName : string)
    (filenames : list string) (schedule : list Move)
    (res : ScanResult) (evs : list Event) :
  Scan w repoName filenames schedule = Some (Ok res, evs) ->
  ProcessedFiles res = Z.of_nat (length (SourceFiles res)) /\
  SourceRepo res = repoName /\
  incl (SourceFiles res) (map Path (candidates w repoName filenames)) /\
  (candidates w repoName filenames = [] -> ProcessedFiles res = 0) /\
  (candidates w repoName filenames <> [] ->
   1 <= ProcessedFiles res
     <= Z.of_nat (length (candidates w repoName filenames))).
Proof.
  unfold Scan, candidates. intros Hscan.
  destruct (ensureDatabase w); [discriminate|].
  destruct (Token w =? "")%string; [discriminate|].
  destruct (buildGitHubSearchURL w repoName filenames) as [url|e|msg|msg];
    try discriminate.
  destruct (searchGitHubFiles w url (Token w)) as [[items|e|msg|msg] sevs];
    cbn [fst] in *; try discriminate.
  destruct items as [|item items].
  - cbn in Hscan. injection Hscan as <- <-. cbn.
    repeat split; try reflexivity; try (intros p []); try contradiction;
      try (intros H; now elim H).
  - remember (item :: items) as found eqn:Hfound.
    assert (Hne : (length found =? 0)%nat = false) by (subst found; reflexivity).
    rewrite Hne in Hscan. unfold processFilesInParallel in Hscan.
    destruct (Z.ltb_spec (CONCURRENCY w) 0); [discriminate|].
    destruct (steps w (Token w) (CONCURRENCY w) schedule (initial found))
      as [s|] eqn:Hsteps; [|discriminate].
    destruct (completed s) eqn:Hdone; [|discriminate].
    destruct (pool_run w (Token w) found schedule s H Hsteps Hdone)
      as (finished & Hperm & Hok & Herr).
    pose proof (outcomes_length w (Token w) finished) as Hlen.
    pose proof (Permutation_length Hperm) as Hsame.
    rewrite numbered_length in Hsame.
    unfold summary in Hscan.
    destruct (Nat.eqb_spec (length (errorsOccurred s)) (length found)) as [Heq|Hneq].
    + destruct (errorsOccurred s); discriminate.
    + injection Hscan as <- <-. cbn [ProcessedFiles SourceFiles SourceRepo].
      rewrite Herr in Hneq. rewrite Hok.
      repeat split; try lia.
      * now apply okPaths_incl.
      * intros Hnil. subst found. discriminate.
Qed.

Lemma Scan_summary_counts_witness :
  exists res evs,
    Scan Examples.partialWorld "o/r" [] (oneByOne 3) = Some (Ok res, evs) /\
    1 <= ProcessedFiles res <= 3.
Proof.
  assert (Hrun : exists res evs,
             Scan Examples.partialWorld "o/r" [] (oneByOne 3) = Some (Ok res, evs))
    by (vm_compute; eauto).
  destruct Hrun as (res & evs & Hrun). exists res, evs. split; [exact Hrun|].
  refine (proj2 (proj2 (proj2 (proj2
            (Scan_summary_counts Examples.partialWorld "o/r" [] (oneByOne 3)
               res evs Hrun)))) _).
  discriminate.
Defined.



(** X10: called with no item, [processFilesInParallel] panics, in
    [make] for a negative CONCURRENCY and otherwise at [errorsOccurred[0]],
    the two lengths compared being both 0; it never returns a summary or an
    error then.  (The test of [Scan] on [len(items)] keeps it from being
    called so.) *)
Theorem processFilesInParallel_without_items (w : World) (token repoName : string) :
  (exists msg,
     processFilesInParallel w [] token repoName [] = Some (Panic msg, [])) /\
  (forall schedule r evs,
     processFilesInParallel w [] token repoName schedule = Some (r, evs) ->
     exists msg, r = Panic msg).
Proof.
  unfold processFilesInParallel. split.
  - destruct (CONCURRENCY w <? 0); cbn; eauto.
  - intros schedule r evs H.
    destruct (Z.ltb_spec (CONCURRENCY w) 0) as [Hneg|Hcap].
    + injection H as <- <-. eauto.
    + destruct (steps w token (CONCURRENCY w) schedule (initial []))
        as [s|] eqn:Hs; [|discriminate].
      destruct (completed s) eqn:Hd; [|discriminate].
      injection H as <- <-.
      destruct (pool_run w token [] schedule s Hcap Hs Hd)
        as (f & Hp & _ & Herr).
      apply Permutation_nil in Hp. subst f.
      unfold summary. rewrite Herr. cbn. eauto.
Qed.

Lemma processFilesInParallel_without_items_witness :
  exists msg, @Panic ScanResult "index out of range [0] with length 0" = Panic msg.
Proof.
  refine (proj2 (processFilesInParallel_without_items Examples.partialWorld
                   "token" "o/r") [] _ [] _).
  reflexivity.
Defined.

Lemma step_idle_without_slot (w : World) (token : string) (capacity : Z)
    (m : Move) (s : PoolState) :
  capacity <= 0 -> idle s -> step w token capacity m s = None.
Proof.
  intros Hcap [Hws Hpool]. destruct m as [|i|i|i].
  - apply step_Submit_blocked. rewrite Hpool. simpl. lia.
  - simpl. now rewrite Hws.
  - simpl. now rewrite Hws.
  - simpl. now rewrite Hws.
Qed.

(** X11: with CONCURRENCY = 0 the channel has no buffer and nothing ever
    receives from it before a unit runs: the first send blocks for good.
    For a non-empty list of items no schedule brings
    [processFilesInParallel] to its end, and a scan that has found a locator
    never returns. *)
Theorem no_slot_never_returns (w : World) (token repoName : string)
    (items : list FileLocator) (schedule : list Move) :
  CONCURRENCY w = 0 ->
  items <> [] ->
  processFilesInParallel w items token repoName schedule = None /\
  (forall filenames,
     ensureDatabase w = None -> Token w <> "" ->
     candidates w repoName filenames = items ->
     Scan w repoName filenames schedule = None).
Proof.
  intros Hzero Hitems.
  assert (Hpool : forall tok,
            processFilesInParallel w items tok repoName schedule = None).
  { intros tok. unfold processFilesInParallel. rewrite Hzero.
    change (0 <? 0) with false. cbv iota.
    destruct schedule as [|m schedule].
    - simpl. unfold completed, initial, numbered. cbn [toSubmit].
      destruct items as [|item items]; [contradiction|reflexivity].
    - cbn [steps].
      rewrite (step_idle_without_slot w tok 0 m (initial items));
        [reflexivity | lia | now split]. }
  split; [apply Hpool|].
  intros filenames Hdb Htoken Hfound. unfold Scan, candidates in *.
  rewrite Hdb. apply String.eqb_neq in Htoken. rewrite Htoken.
  destruct (buildGitHubSearchURL w repoName filenames) as [url|e|msg|msg];
    try (now elim Hitems).
  destruct (searchGitHubFiles w url (Token w)) as [[found|e|msg|msg] sevs];
    cbn [fst] in Hfound; try (now elim Hitems).
  subst found. destruct items as [|item items]; [contradiction|].
  cbn [length Nat.eqb]. now rewrite Hpool.
Qed.

Lemma no_slot_never_returns_witness :
  Scan MoreExamples.noSlotWorld "o/r" [] (oneByOne 2) = None.
Proof.
  refine (proj2 (no_slot_never_returns MoreExamples.noSlotWorld "token" "o/r"
                   [Examples.fileA; Examples.fileB] (oneByOne 2) _ _) [] _ _ _).
  - reflexivity.
  - discriminate.
  - reflexivity.
  - discriminate.
  - reflexivity.
Defined.

Lemma length_zero_nil (A : Type) (l : list A) : length l = 0%nat -> l = [].
Proof.
  destruct l; [reflexivity | discriminate].
Qed.

Section OneSlot.

Variable w : World.
Variable token : string.
Variable items : list FileLocator.

Lemma step_inOrder (m : Move) (s s' : PoolState) :
  slotsHeld 1 s -> inOrder w token items s ->
  step w token 1 m s = Some s' ->
  inOrder w token items s'.
Proof.
  intros [Hheld Hcap] (finished & Hnum & Hok & Herr) Hstep.
  assert (Hrun : (length (running (workers s)) <= pool s)%nat).
  { rewrite running_length, <- Hheld. apply running_le_holders. }
  destruct m as [|i|i|i]; simpl in Hstep.
  - destruct (toSubmit s) as [|[i item] rest] eqn:Hts; [discriminate|].
    destruct (Z.ltb_spec (Z.of_nat (pool s)) 1); [|discriminate].
    injection Hstep as <-. exists finished. repeat split; try assumption.
    cbn [workers toSubmit]. rewrite running_app, running_cons.
    assert (Hnone : running (workers s) = []) by (apply length_zero_nil; lia).
    rewrite Hnum, Hnone. reflexivity.
  - destruct (advance i InProcessFile Recorded (workers s)) as [[item ws]|] eqn:Ha;
      [|discriminate].
    apply advance_split in Ha. destruct Ha as (l1 & l2 & Hw & ->).
    rewrite Hw, running_app, running_cons in Hrun, Hnum.
    rewrite length_app in Hrun. cbn [length] in Hrun.
    assert (H1 : running l1 = []) by (apply length_zero_nil; lia).
    assert (H2 : running l2 = []) by (apply length_zero_nil; lia).
    rewrite H1, H2 in Hnum. cbn [app] in Hnum.
    exists (finished ++ [(i, item)])%list.
    unfold inOrder. rewrite okPaths_snoc, failures_snoc.
    unfold succeeded, unitResult. cbn [fst snd].
    destruct (processFile w i item token) as [[e|] evs]; injection Hstep as <-;
      cbn [toSubmit workers processedFiles errorsOccurred fst];
      rewrite running_app, running_cons, H1, H2, Hok, Herr, ?app_nil_r,
        <- app_assoc;
      repeat split; assumption.
  - destruct (advance i Recorded Released (workers s)) as [[item ws]|] eqn:Ha;
      [|discriminate].
    destruct (pool s) as [|n]; [discriminate|].
    injection Hstep as <-. exists finished.
    apply advance_split in Ha. destruct Ha as (l1 & l2 & Hw & ->).
    repeat split; try assumption. cbn [workers toSubmit].
    rewrite Hnum, Hw, !running_app, !running_cons. reflexivity.
  - destruct (retire i (workers s)) as [ws|] eqn:Hr; [|discriminate].
    injection Hstep as <-. exists finished.
    apply retire_split in Hr. destruct Hr as (l1 & l2 & item & Hw & ->).
    repeat split; try assumption. cbn [workers toSubmit].
    rewrite Hnum, Hw, !running_app, !running_cons. reflexivity.
Qed.

Lemma steps_inOrder (schedule : list Move) :
  forall s s',
  slotsHeld 1 s -> inOrder w token items s ->
  steps w token 1 schedule s = Some s' ->
  inOrder w token items s'.
Proof.
  induction schedule as [|m schedule IH]; intros s s' Hslots Hin Hsteps;
    simpl in Hsteps.
  - now injection Hsteps as <-.
  - destruct (step w token 1 m s) as [s1|] eqn:Hstep; [|discriminate].
    apply (IH s1 s').
    + eapply step_slotsHeld; eassumption.
    + eapply step_inOrder; eassumption.
    + exact Hsteps.
Qed.

End OneSlot.

(** X12: with CONCURRENCY = 1 the units finish in the order of the items,
    whatever the schedule: the summary lists the paths of the files that
    succeeded in the order in which the search returned them, and when every
    file fails the error shown is that of the first item. *)
Theorem one_slot_keeps_the_order (w : World) (items : list FileLocator)
    (token repoName : string) (schedule : list Move)
    (r : run ScanResult) (evs : list Event) :
  CONCURRENCY w = 1 ->
  processFilesInParallel w items token repoName schedule = Some (r, evs) ->
  (forall res, r = Ok res ->
     SourceFiles res = okPaths w token (numbered items)) /\
  (forall e, r = Err e ->
     exists item rest cause,
       items = item :: rest /\
       fst (processFile w 0 item token) = Some cause /\
       e = AllFilesFailed (ProcessingFailed (Path item) cause)).
Proof.
  intros Hone Hrun. unfold processFilesInParallel in Hrun. rewrite Hone in Hrun.
  change (1 <? 0) with false in Hrun. cbv iota in Hrun.
  destruct (steps w token 1 schedule (initial items)) as [s|] eqn:Hsteps;
    [|discriminate].
  destruct (completed s) eqn:Hdone; [|discriminate].
  injection Hrun as <- <-.
  assert (Hinit : inOrder w token items (initial items)).
  { exists []. repeat split. }
  assert (Hslots : slotsHeld 1 (initial items)) by (split; [reflexivity | simpl; lia]).
  destruct (steps_inOrder w token items schedule _ _ Hslots Hinit Hsteps)
    as (finished & Hnum & Hok & Herr).
  apply completed_inv in Hdone. destruct Hdone as [Hsub Hws].
  rewrite Hsub, Hws in Hnum. cbn in Hnum. rewrite app_nil_r in Hnum.
  subst finished. unfold summary. rewrite Herr, Hok. split.
  - intros res Hres.
    destruct (length (failures w token (numbered items)) =? length items)%nat.
    + destruct (failures w token (numbered items)); discriminate.
    + now injection Hres as <-.
  - intros e He.
    destruct (Nat.eqb_spec (length (failures w token (numbered items)))
                (length items)) as [Hlen|Hlen]; [|discriminate].
    destruct items as [|item rest].
    + cbn in He. discriminate.
    + exists item, rest. unfold numbered in He, Hlen. cbn in He, Hlen.
      unfold unitResult in He, Hlen. cbn [fst snd] in He, Hlen.
      destruct (fst (processFile w 0 item token)) as [cause|] eqn:Hfirst.
      * exists cause. cbn in He. injection He as <-. now repeat split.
      * exfalso. cbn in Hlen.
        pose proof (outcomes_length w token (combine (seq 1 (length rest)) rest))
          as Hout.
        rewrite length_combine, length_seq, Nat.min_id in Hout.
        unfold failures, unitResult in Hout. lia.
Qed.

Lemma one_slot_keeps_the_order_witness :
  exists res evs,
    processFilesInParallel Examples.narrowWorld [Examples.fileA; Examples.fileB]
      "token" "o/r"
      [Submit; Finish 0; Release 0; Submit; Finish 1; WgDone 0; Release 1; WgDone 1]
      = Some (Ok res, evs) /\
    SourceFiles res = ["scans/a.json"; "scans/b.json"].
Proof.
  do 2 eexists. split; [vm_compute; reflexivity|].
  refine (proj1 (one_slot_keeps_the_order Examples.narrowWorld
                   [Examples.fileA; Examples.fileB] "token" "o/r"
                   [Submit; Finish 0; Release 0; Submit; Finish 1; WgDone 0;
                    Release 1; WgDone 1] _ _ _ _) _ _).
  - reflexivity.
  - vm_compute. reflexivity.
  - reflexivity.
Defined.

(* ================================================================== *)
(** ** Filter and the query, further *)

(** X13: [Filter] returns an error only when the database handle is not
    set and the database cannot be opened, and the error is that of the
    connection, wrapped; once the handle is set it returns a list whatever
    the storage layer answers: the list of the storage layer, or the empty
    list when the read failed. *)
Theorem Filter_errors_only_when_connecting (w : World) (severity : string) :
  match Filter w severity with
  | Err e =>
    databaseSet w = false /\ exists cause, e = ConnectFailed cause
  | Ok vulnerabilities =>
    match snd (GetVulnerabilities w severity) with
    | None => vulnerabilities = fst (GetVulnerabilities w severity)
    | Some _ => vulnerabilities = []
    end
  | Fatal _ | Panic _ => False
  end.
Proof.
  unfold Filter, ensureDatabase, InitDatabase.
  destruct (databaseSet w).
  - destruct (GetVulnerabilities w severity) as [l [e|]]; reflexivity.
  - destruct (NewPostgresRepo w _) as [cause|].
    + split; [reflexivity | eauto].
    + destruct (GetVulnerabilities w severity) as [l [e|]]; reflexivity.
Qed.

(** X14: the hints are put into the query as they are: a hint that
    contains the text of a filename term gives the query of two hints. *)
Theorem hints_are_not_escaped (w : World) (repo a b : string) :
  buildGitHubSearchURL w repo [a ++ ".json+filename:" ++ b]
    = buildGitHubSearchURL w repo [a; b].
Proof.
  unfold buildGitHubSearchURL. destruct (repo =? "")%string; [reflexivity|].
  cbn [fold_left length Nat.eqb]. unfold addFilename.
  now rewrite !append_assoc.
Qed.

(* ================================================================== *)
(** ** The store: proofs *)

Module RepoFacts.

Import Repo.

Lemma key_eqb_eq (a b : string * string) : key_eqb a b = true <-> a = b.
Proof.
  destruct a as [a1 a2], b as [b1 b2]. unfold key_eqb. simpl.
  rewrite andb_true_iff, !String.eqb_eq. split.
  - intros [-> ->]. reflexivity.
  - intros H. injection H as -> ->. now split.
Qed.

Lemma key_eqb_refl (a : string * string) : key_eqb a a = true.
Proof.
  now apply key_eqb_eq.
Qed.

Lemma key_eqb_neq (a b : string * string) : key_eqb a b = false <-> a <> b.
Proof.
  split.
  - intros H Heq. apply key_eqb_eq in Heq. congruence.
  - intros H. destruct (key_eqb a b) eqn:Heq; [|reflexivity].
    apply key_eqb_eq in Heq. contradiction.
Qed.

(** The row of a key after an upsert. *)
Lemma lookup_upsert (k : string * string) (row : Vulnerabality) (table : Table) :
  lookup k (upsert row table)
    = if key_eqb (key row) k then Some row else lookup k table.
Proof.
  induction table as [|r rest IH]; simpl.
  - reflexivity.
  - destruct (key_eqb (key r) (key row)) eqn:Hr; simpl.
    + apply key_eqb_eq in Hr. rewrite Hr.
      destruct (key_eqb (key row) k); reflexivity.
    + rewrite IH. destruct (key_eqb (key r) k) eqn:Hk; [|reflexivity].
      apply key_eqb_eq in Hk. subst k.
      destruct (key_eqb (key row) (key r)) eqn:Hrow; [|reflexivity].
      apply key_eqb_eq in Hrow. rewrite Hrow, key_eqb_refl in Hr. discriminate.
Qed.

(** The keys of a table after an upsert: the same, or one more. *)
Lemma upsert_keys_present (row : Vulnerabality) (table : Table) :
  In (key row) (map key table) -> map key (upsert row table) = map key table.
Proof.
  induction table as [|r rest IH]; simpl; [contradiction|].
  intros Hin. destruct (key_eqb (key r) (key row)) eqn:Hr.
  - apply key_eqb_eq in Hr. simpl. now rewrite Hr.
  - apply key_eqb_neq in Hr. simpl. f_equal. apply IH.
    destruct Hin as [Hin|Hin]; [contradiction|exact Hin].
Qed.

Lemma upsert_keys_absent (row : Vulnerabality) (table : Table) :
  ~ In (key row) (map key table) ->
  map key (upsert row table) = (map key table ++ [key row])%list.
Proof.
  induction table as [|r rest IH]; simpl; [reflexivity|].
  intros Hout. destruct (key_eqb (key r) (key row)) eqn:Hr.
  - apply key_eqb_eq in Hr. elim Hout. now left.
  - simpl. f_equal. apply IH. intros Hin. apply Hout. now right.
Qed.

Lemma key_In_dec (k : string * string) (keys : list (string * string)) :
  In k keys \/ ~ In k keys.
Proof.
  induction keys as [|x keys IH]; [now right|].
  destruct (key_eqb x k) eqn:Hx.
  - apply key_eqb_eq in Hx. left. now left.
  - apply key_eqb_neq in Hx. destruct IH as [IH|IH].
    + left. now right.
    + right. intros [H|H]; contradiction.
Qed.

Lemma upsert_NoDup (row : Vulnerabality) (table : Table) :
  NoDup (map key table) -> NoDup (map key (upsert row table)).
Proof.
  intros H. destruct (key_In_dec (key row) (map key table)) as [Hin|Hout].
  - now rewrite upsert_keys_present.
  - rewrite upsert_keys_absent by exact Hout.
    apply NoDup_app; [exact H | repeat constructor; intros [] | ].
    intros k Hk [<-|[]]. contradiction.
Qed.

Lemma execAll_NoDup (d : Driver) (vulnerabilities : list Vulnerabality) :
  forall k tx tx',
  NoDup (map key tx) ->
  execAll d k vulnerabilities tx = inr tx' ->
  NoDup (map key tx').
Proof.
  induction vulnerabilities as [|v rest IH]; intros k tx tx' Hnd Hrun; simpl in Hrun.
  - now injection Hrun as <-.
  - destruct (exec d k v); [discriminate|].
    eapply IH; [|exact Hrun]. now apply upsert_NoDup.
Qed.

Lemma save_NoDup (d : Driver) (table : Table)
    (vulnerabilities : list Vulnerabality) :
  NoDup (map key table) ->
  NoDup (map key (snd (SaveVulnerabilities d table vulnerabilities))).
Proof.
  intros Hnd. unfold SaveVulnerabilities.
  destruct (beginTx d); [exact Hnd|].
  destruct (prepare d); [exact Hnd|].
  destruct (execAll d 0 vulnerabilities table) as [e|tx] eqn:Hrun; [exact Hnd|].
  destruct (commit d); [exact Hnd|].
  simpl. eapply execAll_NoDup; eassumption.
Qed.

(** X15: the primary key holds: a table without two rows of one
    [(id, source_file)] has none after [SaveVulnerabilities] either,
    whatever the batch (also one that repeats a key) and whether or not the
    call fails. *)
Theorem SaveVulnerabilities_keeps_primary_key (d : Driver) (table : Table)
    (vulnerabilities : list Vulnerabality) :
  NoDup (map key table) ->
  NoDup (map key (snd (SaveVulnerabilities d table vulnerabilities))).
Proof.
  apply save_NoDup.
Qed.

Lemma SaveVulnerabilities_keeps_primary_key_witness :
  NoDup (map key (snd (SaveVulnerabilities RepoExamples.honest
                         [RepoExamples.first]
                         [RepoExamples.second; RepoExamples.firstAgain]))).
Proof.
  apply SaveVulnerabilities_keeps_primary_key.
  repeat constructor. intros [].
Defined.

(** X16: a save that returns an error changes nothing: the table is as it
    was before the call, also when statements before the failing one had
    gone through. *)
Theorem SaveVulnerabilities_failure_changes_nothing (d : Driver) (table : Table)
    (vulnerabilities : list Vulnerabality) (e : error) :
  fst (SaveVulnerabilities d table vulnerabilities) = Some e ->
  snd (SaveVulnerabilities d table vulnerabilities) = table.
Proof.
  unfold SaveVulnerabilities.
  destruct (beginTx d); [reflexivity|].
  destruct (prepare d); [reflexivity|].
  destruct (execAll d 0 vulnerabilities table); [reflexivity|].
  destruct (commit d); discriminate.
Qed.

Lemma SaveVulnerabilities_failure_changes_nothing_witness :
  SaveVulnerabilities RepoExamples.failingSecond [RepoExamples.first]
    [RepoExamples.second; RepoExamples.firstAgain]
  = (Some (ExternalError "value too long for type character varying(50)"),
     [RepoExamples.first]).
Proof.
  apply injective_projections.
  - reflexivity.
  - exact (SaveVulnerabilities_failure_changes_nothing RepoExamples.failingSecond
             [RepoExamples.first]
             [RepoExamples.second; RepoExamples.firstAgain] _ eq_refl).
Defined.

(** X17: a commit that fails is not reported: when the transaction begins,
    the statement is prepared and every record is executed,
    [SaveVulnerabilities] returns a nil error, also when [tx.Commit()]
    fails and nothing is stored. *)
Theorem SaveVulnerabilities_hides_commit_failure (d : Driver) (table : Table)
    (vulnerabilities : list Vulnerabality) (e : error) :
  beginTx d = None -> prepare d = None ->
  (forall k v, exec d k v = None) ->
  commit d = Some e ->
  SaveVulnerabilities d table vulnerabilities = (None, table).
Proof.
  intros Hbegin Hprepare Hexec Hcommit. unfold SaveVulnerabilities.
  rewrite Hbegin, Hprepare.
  assert (Hrun : forall vs k tx, exists tx', execAll d k vs tx = inr tx').
  { induction vs as [|v vs IH]; intros k tx; simpl; [eauto|].
    rewrite Hexec. apply IH. }
  destruct (Hrun vulnerabilities 0%nat table) as [tx' ->].
  now rewrite Hcommit.
Qed.

Lemma SaveVulnerabilities_hides_commit_failure_witness :
  SaveVulnerabilities RepoExamples.lostCommit [] [RepoExamples.first] = (None, []).
Proof.
  refine (SaveVulnerabilities_hides_commit_failure RepoExamples.lostCommit []
            [RepoExamples.first] (ExternalError "driver: bad connection")
            _ _ _ _); reflexivity.
Defined.

Lemma execAll_reliable (d : Driver) (vulnerabilities : list Vulnerabality) :
  (forall k v, exec d k v = None) ->
  forall k tx,
  execAll d k vulnerabilities tx
    = inr (fold_left (fun t v => upsert (coerce d v) t) vulnerabilities tx).
Proof.
  intros Hexec. induction vulnerabilities as [|v rest IH]; intros k tx; simpl.
  - reflexivity.
  - rewrite Hexec. apply IH.
Qed.

Lemma SaveVulnerabilities_reliable (d : Driver) (table : Table)
    (vulnerabilities : list Vulnerabality) :
  reliable d ->
  SaveVulnerabilities d table vulnerabilities
    = (None, fold_left (fun t v => upsert (coerce d v) t) vulnerabilities table).
Proof.
  intros (Hbegin & Hprepare & Hexec & Hcommit). unfold SaveVulnerabilities.
  now rewrite Hbegin, Hprepare, execAll_reliable, Hcommit.
Qed.

Lemma lookup_fold_upsert (d : Driver) (k : string * string)
    (vulnerabilities : list Vulnerabality) :
  forall table,
  lookup k (fold_left (fun t v => upsert (coerce d v) t) vulnerabilities table)
    = match lastWrite k (map (coerce d) vulnerabilities) with
      | Some r => Some r
      | None => lookup k table
      end.
Proof.
  induction vulnerabilities as [|v rest IH]; intros table; simpl; [reflexivity|].
  rewrite IH, lookup_upsert.
  destruct (lastWrite k (map (coerce d) rest)); [reflexivity|].
  destruct (key_eqb (key (coerce d v)) k); reflexivity.
Qed.

Lemma save_lookup (d : Driver) (table : Table)
    (vulnerabilities : list Vulnerabality) (k : string * string) :
  reliable d ->
  lookup k (snd (SaveVulnerabilities d table vulnerabilities))
    = match lastWrite k (map (coerce d) vulnerabilities) with
      | Some r => Some r
      | None => lookup k table
      end.
Proof.
  intros Hd. rewrite SaveVulnerabilities_reliable by exact Hd.
  apply lookup_fold_upsert.
Qed.

(** X18: the last write wins: after a save that goes through, the row of a
    key is the last record of the batch with that key, as the database
    stores it, and the row the table had when the batch has no record with
    that key. *)
Theorem SaveVulnerabilities_last_write_wins (d : Driver) (table : Table)
    (vulnerabilities : list Vulnerabality) (k : string * string) :
  reliable d ->
  lookup k (snd (SaveVulnerabilities d table vulnerabilities))
    = match lastWrite k (map (coerce d) vulnerabilities) with
      | Some r => Some r
      | None => lookup k table
      end.
Proof.
  apply save_lookup.
Qed.

Lemma honest_reliable : reliable RepoExamples.honest.
Proof.
  repeat split.
Qed.

Lemma SaveVulnerabilities_last_write_wins_witness :
  lookup ("CVE-2024-1234", "scans/a.json")
    (snd (SaveVulnerabilities RepoExamples.honest [RepoExamples.first]
            [RepoExamples.second; RepoExamples.firstAgain]))
  = Some RepoExamples.firstAgain.
Proof.
  exact (SaveVulnerabilities_last_write_wins RepoExamples.honest
           [RepoExamples.first] [RepoExamples.second; RepoExamples.firstAgain]
           ("CVE-2024-1234", "scans/a.json") honest_reliable).
Defined.

(** Two tables with the same keys in the same order, none twice, and the
    same row for every key are the same table. *)
Lemma table_ext (a : Table) :
  forall b,
  map key a = map key b -> NoDup (map key a) ->
  (forall k, lookup k a = lookup k b) -> a = b.
Proof.
  induction a as [|x a IH]; intros b Hkeys Hnd Hlook.
  - destruct b; [reflexivity|discriminate].
  - destruct b as [|y b]; [discriminate|].
    pose proof (f_equal (hd (key x)) Hkeys) as Hxy.
    pose proof (f_equal (@tl _) Hkeys) as Hkeys'.
    cbn [map hd tl] in Hxy, Hkeys'. clear Hkeys. rename Hkeys' into Hkeys.
    cbn [map] in Hnd. inversion Hnd as [|k ks Hnotin Hnd']; subst.
    assert (Hx : x = y).
    { specialize (Hlook (key x)). simpl in Hlook.
      rewrite key_eqb_refl in Hlook. rewrite <- Hxy, key_eqb_refl in Hlook.
      now injection Hlook. }
    subst y. f_equal. apply IH; [exact Hkeys | exact Hnd' |].
    intros k. specialize (Hlook k). simpl in Hlook.
    destruct (key_eqb (key x) k) eqn:Hk; [|exact Hlook].
    apply key_eqb_eq in Hk. subst k.
    assert (Ha : lookup (key x) a = None).
    { clear -Hnotin. induction a as [|z a IH]; [reflexivity|].
      simpl. destruct (key_eqb (key z) (key x)) eqn:Hz.
      - apply key_eqb_eq in Hz. elim Hnotin. now left.
      - apply IH. intros H. apply Hnotin. now right. }
    assert (Hb : lookup (key x) b = None).
    { rewrite Hkeys in Hnotin. clear -Hnotin.
      induction b as [|z b IH]; [reflexivity|].
      simpl. destruct (key_eqb (key z) (key x)) eqn:Hz.
      - apply key_eqb_eq in Hz. elim Hnotin. now left.
      - apply IH. intros H. apply Hnotin. now right. }
    now rewrite Ha, Hb.
Qed.

Lemma fold_upsert_keys_incl (d : Driver) (vulnerabilities : list Vulnerabality) :
  forall table k,
  In k (map key table) ->
  In k (map key (fold_left (fun t v => upsert (coerce d v) t) vulnerabilities table)).
Proof.
  induction vulnerabilities as [|v rest IH]; intros table k Hk; simpl; [exact Hk|].
  apply IH.
  destruct (key_In_dec (key (coerce d v)) (map key table)) as [Hin|Hout].
  - now rewrite upsert_keys_present.
  - rewrite upsert_keys_absent by exact Hout. apply in_or_app. now left.
Qed.

Lemma fold_upsert_keys_written (d : Driver) (vulnerabilities : list Vulnerabality) :
  forall table v,
  In v vulnerabilities ->
  In (key (coerce d v))
     (map key (fold_left (fun t v => upsert (coerce d v) t) vulnerabilities table)).
Proof.
  induction vulnerabilities as [|x rest IH]; intros table v Hv; [contradiction|].
  simpl. destruct Hv as [->|Hv]; [|now apply IH].
  apply fold_upsert_keys_incl.
  destruct (key_In_dec (key (coerce d v)) (map key table)) as [Hin|Hout].
  - now rewrite upsert_keys_present.
  - rewrite upsert_keys_absent by exact Hout. apply in_or_app. right. now left.
Qed.

Lemma fold_upsert_keys_same (d : Driver) (vulnerabilities : list Vulnerabality) :
  forall table,
  (forall v, In v vulnerabilities -> In (key (coerce d v)) (map key table)) ->
  map key (fold_left (fun t v => upsert (coerce d v) t) vulnerabilities table)
    = map key table.
Proof.
  induction vulnerabilities as [|x rest IH]; intros table Hall; simpl; [reflexivity|].
  assert (Hx : map key (upsert (coerce d x) table) = map key table).
  { apply upsert_keys_present. apply Hall. now left. }
  rewrite IH; [exact Hx|].
  intros v Hv. rewrite Hx. apply Hall. now right.
Qed.

(** X19: the upsert is idempotent: a batch saved twice, both saves going
    through, leaves the table that one save leaves. *)
Theorem SaveVulnerabilities_twice (d : Driver) (table : Table)
    (vulnerabilities : list Vulnerabality) :
  reliable d ->
  NoDup (map key table) ->
  snd (SaveVulnerabilities d
         (snd (SaveVulnerabilities d table vulnerabilities)) vulnerabilities)
    = snd (SaveVulnerabilities d table vulnerabilities).
Proof.
  intros Hd Hnd.
  pose proof (save_NoDup d table vulnerabilities Hnd) as Hnd1.
  pose proof (save_NoDup d _ vulnerabilities Hnd1) as Hnd2.
  apply table_ext; [|exact Hnd2|].
  - rewrite (SaveVulnerabilities_reliable d _ vulnerabilities Hd). cbn [snd].
    apply fold_upsert_keys_same. intros v Hv.
    rewrite (SaveVulnerabilities_reliable d table vulnerabilities Hd). cbn [snd].
    now apply fold_upsert_keys_written.
  - intros k. rewrite !save_lookup by exact Hd.
    destruct (lastWrite k (map (coerce d) vulnerabilities)); reflexivity.
Qed.

Lemma SaveVulnerabilities_twice_witness :
  snd (SaveVulnerabilities RepoExamples.honest
         (snd (SaveVulnerabilities RepoExamples.honest [RepoExamples.first]
                 [RepoExamples.second; RepoExamples.firstAgain]))
         [RepoExamples.second; RepoExamples.firstAgain])
  = [RepoExamples.firstAgain; RepoExamples.second].
Proof.
  refine (SaveVulnerabilities_twice RepoExamples.honest [RepoExamples.first]
            [RepoExamples.second; RepoExamples.firstAgain] honest_reliable _).
  repeat constructor. intros [].
Defined.

Lemma insertDesc_Permutation (row : Vulnerabality) (sorted : list Vulnerabality) :
  Permutation (insertDesc row sorted) (row :: sorted).
Proof.
  induction sorted as [|r rest IH]; simpl; [reflexivity|].
  destruct (ScanTime r <=? ScanTime row); [reflexivity|].
  rewrite IH. apply perm_swap.
Qed.

Lemma orderByScanTimeDesc_Permutation (rows : list Vulnerabality) :
  Permutation (orderByScanTimeDesc rows) rows.
Proof.
  unfold orderByScanTimeDesc. induction rows as [|r rows IH]; simpl; [reflexivity|].
  rewrite insertDesc_Permutation. now apply perm_skip.
Qed.

Lemma insertDesc_descending (row : Vulnerabality) (sorted : list Vulnerabality) :
  descending sorted -> descending (insertDesc row sorted).
Proof.
  induction sorted as [|r rest IH]; simpl.
  - intros _. split; [constructor | exact I].
  - intros [Hrest Hdesc]. destruct (Z.leb_spec (ScanTime r) (ScanTime row)).
    + simpl. repeat split; try assumption.
      constructor; [lia|].
      eapply Forall_impl; [|exact Hrest]. simpl. intros x Hx. lia.
    + simpl. split; [|now apply IH].
      apply Forall_forall. intros x Hx.
      apply (Permutation_in _ (insertDesc_Permutation row rest)) in Hx.
      destruct Hx as [<-|Hx]; [lia|].
      rewrite Forall_forall in Hrest. now apply Hrest.
Qed.

Lemma orderByScanTimeDesc_descending (rows : list Vulnerabality) :
  descending (orderByScanTimeDesc rows).
Proof.
  unfold orderByScanTimeDesc. induction rows as [|r rows IH]; simpl; [exact I|].
  now apply insertDesc_descending.
Qed.

Lemma scanAll_readable (d : Driver) (rows : list Vulnerabality) :
  (forall k, scan d k = None) ->
  forall k acc, scanAll d k rows acc = ((acc ++ rows)%list, None).
Proof.
  intros Hscan. induction rows as [|r rows IH]; intros k acc; simpl.
  - now rewrite app_nil_r.
  - rewrite Hscan, IH, <- app_assoc. reflexivity.
Qed.

Lemma scanAll_error (d : Driver) (rows : list Vulnerabality) :
  forall k acc, snd (scanAll d k rows acc) <> None ->
                fst (scanAll d k rows acc) = [].
Proof.
  induction rows as [|r rows IH]; intros k acc H; simpl in *.
  - now elim H.
  - destruct (scan d k); [reflexivity|]. now apply IH.
Qed.

Lemma GetVulnerabilities_readable (d : Driver) (table : Table) (severity : string) :
  readable d ->
  GetVulnerabilities d table severity = (selected table severity, None).
Proof.
  intros (Hquery & Hcut & Hscan). unfold GetVulnerabilities.
  rewrite Hquery, Hcut. now rewrite scanAll_readable.
Qed.

(** X20: when the query and the reading of its rows go through,
    [GetVulnerabilities] returns, with a nil error, exactly the rows of the
    table whose severity is the one asked for (the same text, letter for
    letter), from the most recent scan time to the least recent. *)
Theorem GetVulnerabilities_selects (d : Driver) (table : Table) (severity : string) :
  readable d ->
  snd (GetVulnerabilities d table severity) = None /\
  Permutation (fst (GetVulnerabilities d table severity))
    (filter (fun r => (Severity r =? severity)%string) table) /\
  descending (fst (GetVulnerabilities d table severity)) /\
  (forall r, In r (fst (GetVulnerabilities d table severity)) <->
             In r table /\ Severity r = severity).
Proof.
  intros Hd. rewrite GetVulnerabilities_readable by exact Hd. cbn [fst snd].
  unfold selected. split; [reflexivity|]. split; [|split].
  - apply orderByScanTimeDesc_Permutation.
  - apply orderByScanTimeDesc_descending.
  - intros r. split.
    + intros Hr.
      apply (Permutation_in _ (orderByScanTimeDesc_Permutation _)) in Hr.
      apply filter_In in Hr. now rewrite String.eqb_eq in Hr.
    + intros [Hr Hsev].
      apply (Permutation_in _ (Permutation_sym (orderByScanTimeDesc_Permutation _))).
      apply filter_In. now rewrite String.eqb_eq.
Qed.

Lemma honest_readable : readable RepoExamples.honest.
Proof.
  repeat split.
Qed.

Lemma GetVulnerabilities_selects_witness :
  GetVulnerabilities RepoExamples.honest
    [RepoExamples.first; RepoExamples.firstAgain; RepoExamples.second] "HIGH"
  = ([RepoExamples.second; RepoExamples.first], None) /\
  descending (fst (GetVulnerabilities RepoExamples.honest
                     [RepoExamples.first; RepoExamples.firstAgain;
                      RepoExamples.second] "HIGH")).
Proof.
  split; [reflexivity|].
  exact (proj1 (proj2 (proj2
           (GetVulnerabilities_selects RepoExamples.honest
              [RepoExamples.first; RepoExamples.firstAgain; RepoExamples.second]
              "HIGH" honest_readable)))).
Defined.

(** X21: [GetVulnerabilities] never returns rows together with an error:
    when the query fails, or a row cannot be read, the list returned is
    empty, whatever rows were read before. *)
Theorem GetVulnerabilities_no_rows_with_error (d : Driver) (table : Table)
    (severity : string) :
  snd (GetVulnerabilities d table severity) <> None ->
  fst (GetVulnerabilities d table severity) = [].
Proof.
  unfold GetVulnerabilities. destruct (query d); [reflexivity|].
  apply scanAll_error.
Qed.

(** X22: an answer that breaks off is not noticed: when the rows stop
    coming after [n] of them ([rows.Next()] returns false on an error, and
    [rows.Err()] is not looked at), the first [n] rows are returned as the
    whole answer, with a nil error. *)
Theorem GetVulnerabilities_hides_broken_answer (d : Driver) (table : Table)
    (severity : string) (n : nat) :
  query d = None -> (forall k, scan d k = None) -> delivered d = Some n ->
  GetVulnerabilities d table severity
    = (firstn n (selected table severity), None).
Proof.
  intros Hquery Hscan Hcut. unfold GetVulnerabilities.
  rewrite Hquery, Hcut. now rewrite scanAll_readable.
Qed.

Lemma GetVulnerabilities_hides_broken_answer_witness :
  GetVulnerabilities RepoExamples.cutAfterOne
    [RepoExamples.first; RepoExamples.second] "HIGH"
  = ([RepoExamples.second], None).
Proof.
  refine (GetVulnerabilities_hides_broken_answer RepoExamples.cutAfterOne
            [RepoExamples.first; RepoExamples.second] "HIGH" 1 _ _ _);
    reflexivity.
Defined.

Lemma lookup_In (k : string * string) (table : Table) (r : Vulnerabality) :
  lookup k table = Some r -> In r table.
Proof.
  induction table as [|x rest IH]; simpl; [discriminate|].
  destruct (key_eqb (key x) k).
  - intros H. injection H as ->. now left.
  - intros H. right. now apply IH.
Qed.

(** X23: what is saved is found: after a save that goes through, the last
    record of the batch for a key, as the database stores it, is among the
    rows [GetVulnerabilities] returns for its severity. *)
Theorem saved_record_is_found (d d' : Driver) (table : Table)
    (vulnerabilities : list Vulnerabality) (k : string * string)
    (r : Vulnerabality) :
  reliable d -> readable d' ->
  lastWrite k (map (coerce d) vulnerabilities) = Some r ->
  In r (fst (GetVulnerabilities d'
               (snd (SaveVulnerabilities d table vulnerabilities))
               (Severity r))).
Proof.
  intros Hd Hd' Hlast.
  rewrite GetVulnerabilities_readable by exact Hd'. cbn [fst]. unfold selected.
  apply (Permutation_in _ (Permutation_sym (orderByScanTimeDesc_Permutation _))).
  apply filter_In. split; [|apply String.eqb_refl].
  apply (lookup_In k). rewrite save_lookup by exact Hd. now rewrite Hlast.
Qed.

Lemma saved_record_is_found_witness :
  In RepoExamples.firstAgain
    (fst (GetVulnerabilities RepoExamples.honest
            (snd (SaveVulnerabilities RepoExamples.honest [RepoExamples.first]
                    [RepoExamples.second; RepoExamples.firstAgain]))
            "LOW")).
Proof.
  exact (saved_record_is_found RepoExamples.honest RepoExamples.honest
           [RepoExamples.first] [RepoExamples.second; RepoExamples.firstAgain]
           ("CVE-2024-1234", "scans/a.json") RepoExamples.firstAgain
           honest_reliable honest_readable eq_refl).
Defined.

End RepoFacts.

Lemma GetVulnerabilities_no_rows_with_error_witness :
  Repo.GetVulnerabilities RepoExamples.unreadableSecond
    [RepoExamples.first; RepoExamples.second] "HIGH"
  = ([], Some (ExternalError "sql: Scan error on column index 2")).
Proof.
  apply injective_projections.
  - refine (RepoFacts.GetVulnerabilities_no_rows_with_error
              RepoExamples.unreadableSecond
              [RepoExamples.first; RepoExamples.second] "HIGH" _).
    discriminate.
  - reflexivity.
Defined.

(* ================================================================== *)
(** ** The handlers: proofs *)

(** The service ends the process only for an empty repository name. *)
Lemma Scan_Fatal_empty_repo (w : World) (repoName : string)
    (filenames : list string) (schedule : list Move) (msg : string)
    (evs : list Event) :
  Scan w repoName filenames schedule = Some (Fatal msg, evs) -> repoName = "".
Proof.
  unfold Scan. intros H.
  destruct (ensureDatabase w); [discriminate|].
  destruct (Token w =? "")%string; [discriminate|].
  unfold buildGitHubSearchURL in H.
  destruct (String.eqb_spec repoName "") as [Hrepo|Hrepo]; [exact Hrepo|].
  unfold searchGitHubFiles in H.
  destruct (searchLoop w _ (Token w) (iterations w) 0 (mkSearchResponse 0 []))
    as [[items|] sevs]; [|discriminate].
  destruct (length items =? 0)%nat; [discriminate|].
  unfold processFilesInParallel in H.
  destruct (CONCURRENCY w <? 0); [discriminate|].
  destruct (steps w (Token w) (CONCURRENCY w) schedule (initial items)) as [s|];
    [|discriminate].
  destruct (completed s); [|discriminate].
  unfold summary in H.
  destruct (length (errorsOccurred s) =? length items)%nat; [|discriminate].
  destruct (errorsOccurred s); discriminate.
Qed.

(** X24: the handler of [/scan] never ends the process: the [log.Fatal] of
    [buildGitHubSearchURL] is out of its reach, an empty repository name
    being answered with status 400 before the service is called. *)
Theorem scan_handler_never_exits (w : World)
    (bind : Controller.ScanRequestBody * option error) (schedule : list Move)
    (r : run (list Controller.Reply)) (evs : list Event) :
  Controller.Scan w bind schedule = Some (r, evs) ->
  forall msg, r <> Fatal msg.
Proof.
  unfold Controller.Scan. destruct bind as [reqBody [e|]]; intros H msg.
  - injection H as <- <-. discriminate.
  - destruct (String.eqb_spec (Controller.Repo reqBody) "") as [Hrepo|Hrepo].
    + injection H as <- <-. discriminate.
    + destruct (Scan w (Controller.Repo reqBody) (Controller.Files reqBody) schedule)
        as [[[res|e|m|m] sevs]|] eqn:Hscan; try discriminate;
        try (injection H as <- <-; discriminate).
      apply Scan_Fatal_empty_repo in Hscan. contradiction.
Qed.

Lemma scan_handler_never_exits_witness :
  Controller.Scan Examples.emptyWorld (Controller.mkScanRequestBody "" [], None) []
    = Some (Ok [(400, Controller.ErrorText "Repository name is required" None)], [])
  /\ forall msg,
       @Ok (list Controller.Reply)
         [(400, Controller.ErrorText "Repository name is required" None)]
       <> Fatal msg.
Proof.
  split; [reflexivity|].
  exact (scan_handler_never_exits Examples.emptyWorld
           (Controller.mkScanRequestBody "" [], None) [] _ [] eq_refl).
Defined.

(** X25: when it returns, the handler of [/scan] has answered exactly
    once: with status 200 and the summary when the service returned one,
    with status 500 and the error of the service when it returned an error,
    and with status 400, the service not being called (no request is made),
    when the body could not be read or names no repository. *)
Theorem scan_handler_replies_once (w : World)
    (bind : Controller.ScanRequestBody * option error) (schedule : list Move)
    (replies : list Controller.Reply) (evs : list Event) :
  Controller.Scan w bind schedule = Some (Ok replies, evs) ->
  (exists res,
     replies = [(200, Controller.Summary res)] /\
     Scan w (Controller.Repo (fst bind)) (Controller.Files (fst bind)) schedule
       = Some (Ok res, evs)) \/
  (exists e,
     replies = [(500, Controller.ErrorText "Scan failed: " (Some e))] /\
     Scan w (Controller.Repo (fst bind)) (Controller.Files (fst bind)) schedule
       = Some (Err e, evs)) \/
  (exists text cause,
     replies = [(400, Controller.ErrorText text cause)] /\ evs = [] /\
     (snd bind <> None \/ Controller.Repo (fst bind) = "")).
Proof.
  unfold Controller.Scan. destruct bind as [reqBody [e|]]; intros H; cbn [fst snd].
  - injection H as <- <-. right. right. do 2 eexists.
    repeat split. left. discriminate.
  - destruct (String.eqb_spec (Controller.Repo reqBody) "") as [Hrepo|Hrepo].
    + injection H as <- <-. right. right. do 2 eexists.
      repeat split. now right.
    + destruct (Scan w (Controller.Repo reqBody) (Controller.Files reqBody) schedule)
        as [[[res|e|m|m] sevs]|]; try discriminate; injection H as <- <-.
      * left. eauto.
      * right. left. eauto.
Qed.

Lemma scan_handler_replies_once_witness :
  exists res evs,
    Controller.Scan Examples.partialWorld
      (Controller.mkScanRequestBody "o/r" [], None) (oneByOne 3)
    = Some (Ok [(200, Controller.Summary res)], evs).
Proof.
  assert (Hrun : exists replies evs,
             Controller.Scan Examples.partialWorld
               (Controller.mkScanRequestBody "o/r" [], None) (oneByOne 3)
             = Some (Ok replies, evs) /\
             exists status res, replies = [(status, Controller.Summary res)])
    by (vm_compute; eauto 8).
  destruct Hrun as (replies & evs & Hrun & status & res0 & Hshape).
  destruct (scan_handler_replies_once _ _ _ _ _ Hrun)
    as [(res & -> & _)|[(e & -> & _)|(text & cause & -> & _)]].
  - exists res, evs. exact Hrun.
  - discriminate.
  - discriminate.
Defined.

(** X26: once the database handle is set, the handler of [/query] answers
    a severity that is not empty with status 202 and a list, once, whatever
    the storage layer does: its list when the read goes through, the empty
    list when the read fails; a failure of the storage layer never reaches
    the client as an error. *)
Theorem query_handler_always_accepts (w : World) (severity : string) :
  databaseSet w = true -> severity <> "" ->
  Controller.Query w (severity, None)
    = Ok [(202, Controller.Records
                  (match snd (GetVulnerabilities w severity) with
                   | None => fst (GetVulnerabilities w severity)
                   | Some _ => []
                   end))].
Proof.
  intros Hdb Hsev. unfold Controller.Query. apply String.eqb_neq in Hsev.
  rewrite Hsev. unfold Filter, ensureDatabase. rewrite Hdb.
  destruct (GetVulnerabilities w severity) as [l [e|]]; reflexivity.
Qed.

Lemma query_handler_always_accepts_witness :
  Controller.Query Examples.brokenStoreWorld ("HIGH", None)
    = Ok [(202, Controller.Records [])].
Proof.
  refine (query_handler_always_accepts Examples.brokenStoreWorld "HIGH" _ _).
  - reflexivity.
  - discriminate.
Defined.

(** X27: when the database handle is not set and the database cannot be
    opened, the handler of [/query] answers a severity that is not empty
    twice: status 400 with the error of the connection, and then, there
    being no [return], status 202 with the nil list. *)
Theorem query_handler_replies_twice (w : World) (severity : string) (e : error) :
  severity <> "" ->
  ensureDatabase w = Some e ->
  Controller.Query w (severity, None)
    = Ok [(400, Controller.ErrorText "" (Some e)); (202, Controller.Records [])].
Proof.
  intros Hsev Hdb. unfold Controller.Query, Filter.
  apply String.eqb_neq in Hsev. now rewrite Hsev, Hdb.
Qed.

Lemma query_handler_replies_twice_witness :
  Controller.Query MoreExamples.noDatabaseWorld ("HIGH", None)
    = Ok [(400, Controller.ErrorText ""
                  (Some (ConnectFailed (ExternalError "connection refused"))));
          (202, Controller.Records [])].
Proof.
  refine (query_handler_replies_twice MoreExamples.noDatabaseWorld "HIGH" _ _ _).
  - discriminate.
  - reflexivity.
Defined.

(* ================================================================== *)
(** ** The retry budget of the download, on the code *)

(** C2, on the code: every attempt at the download fails, the body of each
    answer breaking off while it is read; the code makes its MAX_RETRIES + 1
    = 3 attempts, with the waits 0, 1 and 2, and then returns no error: the
    [err] tested at line 328 is not the one the loop sets, the bytes read
    before the break are decoded, and the file is counted as processed by
    the scan. *)
Theorem exhausted_download_returns_no_error :
  MAX_RETRIES MoreExamples.cutBodyWorld = 2 /\
  (forall attempt,
     failedExchange
       (fileHttp MoreExamples.cutBodyWorld 0 Examples.fileA "token" attempt)
     = true) /\
  processFile MoreExamples.cutBodyWorld 0 Examples.fileA "token"
    = (None,
       [EvFetchAttempt 0 0; EvSleep 1; EvFetchAttempt 0 1; EvSleep 2;
        EvFetchAttempt 0 2; EvUnmarshal 0 "[]"]) /\
  waits 0 (snd (processFile MoreExamples.cutBodyWorld 0 Examples.fileA "token"))
    = [0; 1; 2] /\
  Scan MoreExamples.cutBodyWorld "o/r" [] (oneByOne 1)
    = Some (Ok (mkScanResult 1 100 "o/r" ["scans/a.json"]),
            [EvSearchAttempt 0; EvFetchAttempt 0 0; EvSleep 1;
             EvFetchAttempt 0 1; EvSleep 2; EvFetchAttempt 0 2;
             EvUnmarshal 0 "[]"]).
Proof.
  split; [reflexivity|]. split; [intros attempt; reflexivity|].
  split; [reflexivity|]. split; reflexivity.
Qed.
